(** * Investments distribution calculator: a shallow embedding of
      [investments_calc.py] and the properties of its rebalancing engine.

    Conventions of the embedding.

    - [Decimal] values are exact rationals ([Qc], canonical fractions, so
      that Python's numeric [==] is Leibniz equality).  The rounding of the
      decimal context (28 significant digits) is not modelled: every
      operation is exact.
    - Share counts are integers ([Z]): the configuration supplies Python
      ints and the engine only ever stores integer-valued quotients.
    - [Decimal.__floordiv__] is the integer part of the exact quotient,
      truncated toward zero (it is not the floor for a negative quotient);
      [math.ceil] is the ceiling.
    - A raised exception is the [Raise] outcome of the [res] monad; a loop
      whose retry budget is used up is [Diverge].
    - The holding tree is mutated in place by the source; here every pass
      returns the updated tree.  No node is shared between two places of a
      tree, so a functional update of one position is the in-place write.
    - [price], [value] and [current_value] are [None] between construction
      and the valuation pass, which assigns all three on every node before
      anything reads them; they are plain fields here and the constructor
      fills them with 0. *)

From Stdlib Require Import QArith Qcanon Qround ZArith Lia.
From stdpp Require Import base decidable option numbers list gmap strings.

Local Open Scope Qc_scope.

Set Warnings "-register-all".

(** ** Numbers *)

Definition of_Z (n : Z) : Qc := Qc_of_Z n.

(** [Decimal(n) / Decimal(d)] for literals of the configuration. *)
Definition dec (n : Z) (d : positive) : Qc := Q2Qc (n # d).

(** Integer part of a rational, truncated toward zero. *)
Definition truncate (q : Qc) : Z := Z.quot (Qnum q) (Zpos (Qden q)).

Definition floor (q : Qc) : Z := Qfloor q.

Definition ceil (q : Qc) : Z := Qceiling q.

Definition Qc_max (a b : Qc) : Qc := if decide (a < b) then b else a.

Definition Qc_min (a b : Qc) : Qc := if decide (b < a) then b else a.

Fixpoint sum (l : list Qc) : Qc :=
  match l with
  | [] => 0
  | x :: l => x + sum l
  end.

(** ** Exceptions *)

Inductive exn : Type :=
| InvalidHolding
| InvalidWeights
| LogicalError
| KeyError
| UnknownTickers
| ZeroDivision.

Inductive res (A : Type) : Type :=
| Ret (a : A)
| Raise (e : exn)
| Diverge.

Arguments Ret {A} a.
Arguments Raise {A} e.
Arguments Diverge {A}.

Definition bind {A B : Type} (m : res A) (k : A -> res B) : res B :=
  match m with
  | Ret a => k a
  | Raise e => Raise e
  | Diverge => Diverge
  end.

Notation "x <- m ;; k" := (bind m (fun x => k))
  (at level 100, m at next level, right associativity, only parsing).
Notation "'unpack' p <- m ;; k" := (bind m (fun x => match x with p => k end))
  (at level 100, p pattern, m at next level, right associativity, only parsing).

Definition mapM {A B : Type} (f : A -> res B) : list A -> res (list B) :=
  fix go (l : list A) : res (list B) :=
    match l with
    | [] => Ret []
    | x :: l => y <- f x;; ys <- go l;; Ret (y :: ys)
    end.

(** True division of two Decimals. *)
Definition divide (a b : Qc) : res Qc :=
  if decide (b = 0) then Raise ZeroDivision else Ret (a / b).

(** [a // b] on Decimals. *)
Definition floordiv (a b : Qc) : res Z :=
  if decide (b = 0) then Raise ZeroDivision else Ret (truncate (a / b)).

(** ** CommissionSpec *)

Record CommissionSpec : Type := mkCommissionSpec {
  minimum : Qc;
  percent : option Qc;
  per_share : option Qc;
  maximum_percent : option Qc
}.

Definition CommissionSpec_calculate (self : CommissionSpec) (shares : Z) (price : Qc) : Qc :=
  let commissions := 0 in
  let commissions :=
    match percent self with
    | Some p => commissions + of_Z shares * price * p / dec 100 1
    | None => commissions
    end in
  let commissions :=
    match per_share self with
    | Some p => commissions + of_Z shares * p
    | None => commissions
    end in
  let commissions :=
    match maximum_percent self with
    | Some p => Qc_min commissions (of_Z shares * price * p / dec 100 1)
    | None => commissions
    end in
  Qc_max (minimum self) commissions.

(** ** Holding *)

(** The attributes every holding carries, leaf or group. *)
Record Attrs : Type := mkAttrs {
  name : string;
  expected_weight : Qc;
  weight : Qc;
  current_value : Qc;
  value : Qc;
  minimum_value : option Qc;
  selling_restricted : option bool;
  sell_blocked : bool;
  maximum_value : option Qc;
  buying_restricted : option bool;
  buy_blocked : bool
}.

(** The attributes only a leaf (a holding with a ticker) carries. *)
Record Stock : Type := mkStock {
  ticker : string;
  current_shares : Z;
  shares : Z;
  commission : Qc;
  price : Qc
}.

Inductive Holding : Type :=
| Leaf (a : Attrs) (s : Stock)
| Group (a : Attrs) (holdings : list Holding).

Definition attrs (h : Holding) : Attrs :=
  match h with
  | Leaf a _ => a
  | Group a _ => a
  end.

Definition is_group (h : Holding) : bool :=
  match h with
  | Leaf _ _ => false
  | Group _ _ => true
  end.

Definition children (h : Holding) : list Holding :=
  match h with
  | Leaf _ _ => []
  | Group _ hs => hs
  end.

Definition with_attrs (a : Attrs) (h : Holding) : Holding :=
  match h with
  | Leaf _ s => Leaf a s
  | Group _ hs => Group a hs
  end.

(** Truthiness of a tri-state flag ([None], [True], [False]). *)
Definition truthy (flag : option bool) : bool :=
  match flag with
  | Some true => true
  | _ => false
  end.

(** Field writes. *)
Definition put_weight (w : Qc) (a : Attrs) : Attrs :=
  mkAttrs (name a) (expected_weight a) w (current_value a) (value a)
    (minimum_value a) (selling_restricted a) (sell_blocked a)
    (maximum_value a) (buying_restricted a) (buy_blocked a).

Definition put_value (v : Qc) (a : Attrs) : Attrs :=
  mkAttrs (name a) (expected_weight a) (weight a) (current_value a) v
    (minimum_value a) (selling_restricted a) (sell_blocked a)
    (maximum_value a) (buying_restricted a) (buy_blocked a).

Definition put_current_value (v : Qc) (a : Attrs) : Attrs :=
  mkAttrs (name a) (expected_weight a) (weight a) v (value a)
    (minimum_value a) (selling_restricted a) (sell_blocked a)
    (maximum_value a) (buying_restricted a) (buy_blocked a).

Definition put_minimum_value (m : option Qc) (a : Attrs) : Attrs :=
  mkAttrs (name a) (expected_weight a) (weight a) (current_value a) (value a)
    m (selling_restricted a) (sell_blocked a)
    (maximum_value a) (buying_restricted a) (buy_blocked a).

Definition put_maximum_value (m : option Qc) (a : Attrs) : Attrs :=
  mkAttrs (name a) (expected_weight a) (weight a) (current_value a) (value a)
    (minimum_value a) (selling_restricted a) (sell_blocked a)
    m (buying_restricted a) (buy_blocked a).

Definition put_selling_restricted (r : option bool) (a : Attrs) : Attrs :=
  mkAttrs (name a) (expected_weight a) (weight a) (current_value a) (value a)
    (minimum_value a) r (sell_blocked a)
    (maximum_value a) (buying_restricted a) (buy_blocked a).

Definition put_buying_restricted (r : option bool) (a : Attrs) : Attrs :=
  mkAttrs (name a) (expected_weight a) (weight a) (current_value a) (value a)
    (minimum_value a) (selling_restricted a) (sell_blocked a)
    (maximum_value a) r (buy_blocked a).

Definition put_sell_blocked (b : bool) (a : Attrs) : Attrs :=
  mkAttrs (name a) (expected_weight a) (weight a) (current_value a) (value a)
    (minimum_value a) (selling_restricted a) b
    (maximum_value a) (buying_restricted a) (buy_blocked a).

Definition put_buy_blocked (b : bool) (a : Attrs) : Attrs :=
  mkAttrs (name a) (expected_weight a) (weight a) (current_value a) (value a)
    (minimum_value a) (selling_restricted a) (sell_blocked a)
    (maximum_value a) (buying_restricted a) b.

Definition put_price (p : Qc) (s : Stock) : Stock :=
  mkStock (ticker s) (current_shares s) (shares s) (commission s) p.

(** [Holding.__init__]: a leaf is given a ticker and shares, a group a
    non-empty list of holdings; [percents] is the number in front of the
    percent sign of the [weight] string. *)
Definition new_attrs (nm : string) (percents : Qc) : Attrs :=
  let expected := percents / dec 100 1 in
  mkAttrs nm expected expected 0 0 None None false None None false.

Definition stock (nm : string) (percents : Qc) (tk : string) (n : Z) : Holding :=
  Leaf (new_attrs (nm +:+ " (" +:+ tk +:+ ")") percents) (mkStock tk n n 0 0).

Definition group (nm : string) (percents : Qc) (hs : list Holding) : res Holding :=
  match hs with
  | [] => Raise InvalidHolding
  | _ => Ret (Group (new_attrs nm percents) hs)
  end.

(** [Holding.commission_for]. *)
Definition commission_for (s : Stock) (n : Z) (commission_spec : CommissionSpec) : Qc :=
  CommissionSpec_calculate commission_spec (Z.abs (n - current_shares s)) (price s).

(** [Holding.change], on a leaf. *)
Definition change (a : Attrs) (s : Stock) (n : Z) (commission_spec : CommissionSpec) : Holding :=
  Leaf (put_value (of_Z n * price s) a)
       (mkStock (ticker s) (current_shares s) n (commission_for s n commission_spec) (price s)).

(** [Holding.set_weight]. *)
Definition set_weight (w : Qc) (h : Holding) : Holding :=
  with_attrs (put_weight w (attrs h)) h.

Definition on_buy_blocked (a : Attrs) (s : Stock) : Holding :=
  Leaf (put_buy_blocked true a) s.

Definition on_sell_blocked (a : Attrs) (s : Stock) : Holding :=
  Leaf (put_sell_blocked true a) s.

(** [apply_restriction], for the two attribute names it is called with:
    a leaf's flag is set only where it is still [None]. *)
Fixpoint restrict_selling (restrict : bool) (h : Holding) : Holding :=
  match h with
  | Group a hs => Group a (map (restrict_selling restrict) hs)
  | Leaf a s =>
      match selling_restricted a with
      | None => Leaf (put_selling_restricted (Some restrict) a) s
      | Some _ => h
      end
  end.

Fixpoint restrict_buying (restrict : bool) (h : Holding) : Holding :=
  match h with
  | Group a hs => Group a (map (restrict_buying restrict) hs)
  | Leaf a s =>
      match buying_restricted a with
      | None => Leaf (put_buying_restricted (Some restrict) a) s
      | Some _ => h
      end
  end.

(** ** Portfolio *)

Record Portfolio : Type := mkPortfolio {
  portfolio_name : string;
  portfolio_commission_spec : CommissionSpec;
  portfolio_holdings : list Holding;
  free_assets : Qc;
  min_free_assets : Qc;
  min_trade_volume : Qc
}.

(** [get_weight]. *)
Definition get_weight (assets value : Qc) : Qc :=
  if decide (assets = 0) then 1 else value / assets.

(** ** Valuation pass *)

Fixpoint current_value_of (prices : gmap string Qc) (h : Holding) : res Holding :=
  match h with
  | Group a hs =>
      hs' <- mapM (current_value_of prices) hs;;
      let total := sum (map (fun c => current_value (attrs c)) hs') in
      Ret (Group (put_value total (put_current_value total a)) hs')
  | Leaf a s =>
      match prices !! ticker s with
      | None => Raise KeyError
      | Some p =>
          let v := of_Z (current_shares s) * p in
          Ret (Leaf (put_value v (put_current_value v a)) (put_price p s))
      end
  end.

Definition calculate_current_value (holdings : list Holding) (prices : gmap string Qc)
  : res (list Holding * Qc) :=
  hs' <- mapM (current_value_of prices) holdings;;
  Ret (hs', sum (map (fun c => current_value (attrs c)) hs')).

(** ** Restriction propagator *)

(** The running [total_minimum_value] of the loop: [None] until the first
    holding with a minimum, then the sum of the minima seen. *)
Fixpoint total_minimum (acc : option Qc) (hs : list Holding) : option Qc :=
  match hs with
  | [] => acc
  | h :: hs =>
      total_minimum
        match minimum_value (attrs h), acc with
        | Some m, None => Some m
        | Some m, Some t => Some (t + m)
        | None, _ => acc
        end hs
  end.

(** The list [maximum_values] the loop collects. *)
Definition maximum_values (hs : list Holding) : list Qc :=
  omap (fun h => maximum_value (attrs h)) hs.

Definition total_maximum (hs : list Holding) : option Qc :=
  if decide (length (maximum_values hs) = length hs)
  then Some (sum (maximum_values hs)) else None.

Fixpoint restrictions_of (h : Holding) : Holding :=
  match h with
  | Group a hs =>
      let hs' := map restrictions_of hs in
      Group (put_maximum_value (total_maximum hs')
               (put_minimum_value (total_minimum None hs') a)) hs'
  | Leaf a s =>
      let a := if truthy (selling_restricted a)
               then put_minimum_value (Some (current_value a)) a else a in
      let a := if truthy (buying_restricted a)
               then put_maximum_value (Some (current_value a)) a else a in
      Leaf a s
  end.

Definition calculate_restrictions (holdings : list Holding)
  : list Holding * (option Qc * option Qc) :=
  let hs' := map restrictions_of holdings in
  (hs', (total_minimum None hs', total_maximum hs')).

(** ** Weight corrector *)

(** The two correctors are the same loop around two different bodies.
    What they share is written once: the [while True] loop with its
    [continue], and the recursion into the groups that follows it. *)
Section Corrector.

(** One execution of the body of [while True] up to the test that decides
    on [continue]: the holdings with their weights rewritten, [succeeded],
    and whether [continue] is taken. *)
Variable iteration : Qc -> list Holding -> res (list Holding * bool * bool).

(** The [while True] loop of one level; [retries] bounds the number of
    times [continue] may be taken. *)
Fixpoint corrector_loop (retries : nat) (expected_total_value : Qc) (hs : list Holding)
  : res (list Holding * bool) :=
  unpack (hs', succeeded, again) <- iteration expected_total_value hs;;
  if again then
    match retries with
    | O => Diverge
    | S retries => corrector_loop retries expected_total_value hs'
    end
  else Ret (hs', succeeded).


(** The last loop of the function: recurse into every group, with the
    group's corrected weight.  [below] holds, for every holding of the
    level, the recursive call on its children, which the loop above has
    not touched. *)
Definition into_groups (expected_total_value : Qc)
    (hs : list Holding) (below : list (Qc -> res (list Holding * bool)))
  : res (list Holding * bool) :=
  rs <- mapM (fun hk : Holding * (Qc -> res (list Holding * bool)) =>
          match hk.1 with
          | Group a _ =>
              unpack (cs, ok) <- hk.2 (expected_total_value * weight a);;
              Ret (Group a cs, ok)
          | Leaf _ _ => Ret (hk.1, true)
          end) (zip hs below);;
  Ret (map fst rs, forallb snd rs).

(** The whole function, called on the holdings of the group [h]. *)
Fixpoint corrector_below (h : Holding) (expected_total_value : Qc)
  : res (list Holding * bool) :=
  match h with
  | Leaf _ _ => Ret ([], true)
  | Group _ hs =>
      unpack (hs', succeeded) <- corrector_loop (length hs) expected_total_value hs;;
      unpack (hs'', succeeded') <-
        into_groups expected_total_value hs' (map corrector_below hs);;
      Ret (hs'', succeeded && succeeded')
  end.

(** The whole function, called on a list of holdings. *)
Definition corrector (holdings : list Holding) (expected_total_value : Qc)
  : res (list Holding * bool) :=
  unpack (hs', succeeded) <-
    corrector_loop (length holdings) expected_total_value holdings;;
  unpack (hs'', succeeded') <-
    into_groups expected_total_value hs' (map corrector_below holdings);;
  Ret (hs'', succeeded && succeeded').

End Corrector.

(** ** Weight corrector, selling restrictions *)

(** The test of the first loop of an iteration: the holding does not go
    to [correctable_holdings]. *)
Definition selling_pinned (expected_total_value : Qc) (h : Holding) : bool :=
  match minimum_value (attrs h) with
  | Some m => bool_decide (expected_total_value * weight (attrs h) ≤ m)
  | None => false
  end.

Definition selling_correctable (expected_total_value : Qc) (hs : list Holding) : list Holding :=
  filter (fun h => selling_pinned expected_total_value h = false) hs.

Definition total_assets_overuse (expected_total_value : Qc) (hs : list Holding) : Qc :=
  sum (omap (fun h =>
         match minimum_value (attrs h) with
         | Some m =>
             if bool_decide (expected_total_value * weight (attrs h) ≤ m)
             then Some (m - expected_total_value * weight (attrs h)) else None
         | None => None
         end) hs).

(** Does the rescaled weight of a correctable holding fall below its floor? *)
Definition selling_clamped (expected_total_value multiplicator : Qc) (h : Holding) : bool :=
  match minimum_value (attrs h) with
  | Some m => bool_decide (expected_total_value * (weight (attrs h) * multiplicator) < m)
  | None => false
  end.

(** The body of the loop over [correctable_holdings], for one holding. *)
Definition selling_corrected (expected_total_value multiplicator : Qc) (h : Holding)
  : res Holding :=
  let corrected_weight := weight (attrs h) * multiplicator in
  match minimum_value (attrs h) with
  | Some m =>
      if bool_decide (expected_total_value * corrected_weight < m)
      then w <- divide m expected_total_value;; Ret (set_weight w h)
      else Ret (set_weight corrected_weight h)
  | None => Ret (set_weight corrected_weight h)
  end.

Definition selling_iteration (expected_total_value : Qc) (hs : list Holding)
  : res (list Holding * bool * bool) :=
  let overuse := total_assets_overuse expected_total_value hs in
  let correctable := selling_correctable expected_total_value hs in
  if decide (0 < overuse) then
    match correctable with
    | [] => Ret (hs, false, false)
    | _ =>
        let expected_value :=
          sum (map (fun h => expected_total_value * weight (attrs h)) correctable) in
        multiplicator <- divide (expected_value - overuse) expected_value;;
        hs' <- mapM (fun h =>
                 if selling_pinned expected_total_value h then Ret h
                 else selling_corrected expected_total_value multiplicator h) hs;;
        let succeeded :=
          negb (existsb (selling_clamped expected_total_value multiplicator) correctable) in
        Ret (hs', succeeded, negb succeeded)
    end
  else Ret (hs, true, false).

Definition correct_weights_for_selling_restriction
    (holdings : list Holding) (expected_total_value : Qc) : res (list Holding * bool) :=
  corrector selling_iteration holdings expected_total_value.

(** ** Weight corrector, buying restrictions *)

Definition buying_pinned (expected_total_value : Qc) (h : Holding) : bool :=
  match maximum_value (attrs h) with
  | Some m => bool_decide (m ≤ expected_total_value * weight (attrs h))
  | None => false
  end.

Definition buying_correctable (expected_total_value : Qc) (hs : list Holding) : list Holding :=
  filter (fun h => buying_pinned expected_total_value h = false) hs.

Definition extra_assets (expected_total_value : Qc) (hs : list Holding) : Qc :=
  sum (omap (fun h =>
         match maximum_value (attrs h) with
         | Some m =>
             if bool_decide (m ≤ expected_total_value * weight (attrs h))
             then Some (expected_total_value * weight (attrs h) - m) else None
         | None => None
         end) hs).

Definition buying_clamped (expected_total_value multiplicator : Qc) (h : Holding) : bool :=
  match maximum_value (attrs h) with
  | Some m => bool_decide (m < expected_total_value * (weight (attrs h) * multiplicator))
  | None => false
  end.

Definition buying_corrected (expected_total_value multiplicator : Qc) (h : Holding)
  : res Holding :=
  let corrected_weight := weight (attrs h) * multiplicator in
  match maximum_value (attrs h) with
  | Some m =>
      if bool_decide (m < expected_total_value * corrected_weight)
      then w <- divide m expected_total_value;; Ret (set_weight w h)
      else Ret (set_weight corrected_weight h)
  | None => Ret (set_weight corrected_weight h)
  end.

(** The body of the buying loop; [if extra_assets:] tests for a value
    other than zero. *)
Definition buying_iteration (expected_total_value : Qc) (hs : list Holding)
  : res (list Holding * bool * bool) :=
  let extra := extra_assets expected_total_value hs in
  let correctable := buying_correctable expected_total_value hs in
  if decide (extra = 0) then Ret (hs, true, false)
  else
    match correctable with
    | [] => Ret (hs, false, false)
    | _ =>
        let expected_value :=
          sum (map (fun h => expected_total_value * weight (attrs h)) correctable) in
        multiplicator <- divide (expected_value + extra) expected_value;;
        hs' <- mapM (fun h =>
                 if buying_pinned expected_total_value h then Ret h
                 else buying_corrected expected_total_value multiplicator h) hs;;
        let succeeded :=
          negb (existsb (buying_clamped expected_total_value multiplicator) correctable) in
        Ret (hs', succeeded, negb succeeded)
    end.

Definition correct_weights_for_buying_restriction
    (holdings : list Holding) (expected_total_value : Qc) : res (list Holding * bool) :=
  corrector buying_iteration holdings expected_total_value.

(** ** Rebalancer *)

Section Trading.

Variable commission_spec : CommissionSpec.
Variable min_trade_volume : Qc.

(** The leaf branch of the loop body of [rebalance]. *)
Definition rebalance_leaf (a : Attrs) (s : Stock) (expected_total_value : Qc) : res Holding :=
  let expected_value := expected_total_value * weight a in
  if decide (shares s ≠ current_shares s) then Raise LogicalError
  else
    let current_weight := get_weight expected_total_value (current_value a) in
    if decide (current_weight ≠ weight a) then
      rebalanced_shares <- floordiv expected_value (price s);;
      rebalanced_shares <-
        (if decide (rebalanced_shares ≠ current_shares s) then
           let commission := commission_for s rebalanced_shares commission_spec in
           floordiv (expected_value - commission) (price s)
         else Ret rebalanced_shares);;
      if decide (rebalanced_shares ≠ current_shares s) then
        if bool_decide (rebalanced_shares < current_shares s)%Z
           && truthy (selling_restricted a)
        then Ret (on_sell_blocked a s)
        else if bool_decide (rebalanced_shares > current_shares s)%Z
                && truthy (buying_restricted a)
        then Ret (on_buy_blocked a s)
        else if decide (of_Z (Z.abs (rebalanced_shares - current_shares s)) * price s
                        < min_trade_volume)
        then
          if decide (rebalanced_shares < current_shares s)%Z
          then Ret (on_sell_blocked a s)
          else Ret (on_buy_blocked a s)
        else Ret (change a s rebalanced_shares commission_spec)
      else Ret (Leaf a s)
    else Ret (Leaf a s).

(** The loop body of [rebalance] for one holding. *)
Fixpoint rebalance_holding (h : Holding) (expected_total_value : Qc) : res Holding :=
  match h with
  | Group a hs =>
      let expected_value := expected_total_value * weight a in
      hs' <- mapM (fun c => rebalance_holding c expected_value) hs;;
      Ret (Group (put_value (sum (map (fun c => value (attrs c)) hs')) a) hs')
  | Leaf a s => rebalance_leaf a s expected_total_value
  end.

Definition rebalance (holdings : list Holding) (expected_total_value : Qc)
  : res (list Holding * Qc) :=
  hs' <- mapM (fun c => rebalance_holding c expected_total_value) holdings;;
  Ret (hs', sum (map (fun c => value (attrs c)) hs')).

(** ** Free-cash distributor *)

Variable underfunded_only : bool.

Definition limit_extra_shares_to_minimum (s : Stock) (extra_shares : Z) : res Z :=
  quotient <- divide min_trade_volume (price s);;
  let min_trade_shares := ceil quotient in
  let min_extra_shares := min_trade_shares in
  let min_extra_shares :=
    if decide (shares s > current_shares s)%Z
    then (min_extra_shares - (shares s - current_shares s))%Z
    else min_extra_shares in
  let min_extra_shares := Z.max 1 min_extra_shares in
  Ret (Z.min extra_shares min_extra_shares).

(** The number of extra shares the leaf branch arrives at, before the
    test that commits or skips the trade. *)
Definition extra_shares_for (s : Stock) (free_assets : Qc) : res Z :=
  let previous_commission := commission s in
  extra_shares <- floordiv (free_assets + previous_commission) (price s);;
  extra_shares <- limit_extra_shares_to_minimum s extra_shares;;
  if decide (extra_shares > 0)%Z then
    let commission :=
      CommissionSpec_calculate commission_spec
        (Z.abs (shares s + extra_shares - current_shares s)) (price s) in
    extra_shares <- floordiv (free_assets + previous_commission - commission) (price s);;
    limit_extra_shares_to_minimum s extra_shares
  else Ret extra_shares.

(** The test guarding [holding.change] in the distributor. *)
Definition trade_refused (a : Attrs) (s : Stock) (result_shares : Z) : bool :=
  bool_decide (result_shares < current_shares s)%Z && truthy (selling_restricted a)
  || bool_decide (result_shares > current_shares s)%Z && truthy (buying_restricted a)
  || bool_decide (of_Z (Z.abs (result_shares - current_shares s)) * price s < min_trade_volume).

(** The leaf branch of the loop body of [distribute_free_assets];
    [expected_value] is the leaf's own. *)
Definition distribute_leaf (a : Attrs) (s : Stock) (expected_value free_assets : Qc)
  : res (Holding * Qc) :=
  if negb underfunded_only || bool_decide (value a < expected_value) then
    let previous_commission := commission s in
    extra_shares <- extra_shares_for s free_assets;;
    if decide (extra_shares > 0)%Z then
      let result_shares := (shares s + extra_shares)%Z in
      if trade_refused a s result_shares then Ret (Leaf a s, free_assets)
      else
        let new_commission := commission_for s result_shares commission_spec in
        Ret (change a s result_shares commission_spec,
             free_assets - (of_Z extra_shares * price s
                            - (new_commission - previous_commission)))
    else Ret (Leaf a s, free_assets)
  else Ret (Leaf a s, free_assets).

(** The sort key of the distributor. *)
Definition difference_from_expected (expected_total_value : Qc) (h : Holding) : Qc :=
  let expected_value := expected_total_value * expected_weight (attrs h) in
  if decide (expected_value = 0) then - value (attrs h)
  else (expected_value - value (attrs h)) / expected_value.

(** [sorted(..., key=..., reverse=True)]: descending by key, and stable,
    so items of equal key keep their order. *)
Fixpoint insert_descending {A : Type} (key : A -> Qc) (x : A) (l : list A) : list A :=
  match l with
  | [] => [x]
  | y :: l' =>
      if decide (key x < key y) then y :: insert_descending key x l'
      else x :: l
  end.

Definition sorted_descending {A : Type} (key : A -> Qc) (l : list A) : list A :=
  foldr (insert_descending key) [] l.

(** One step of the distributor on the holding at a position: the cash
    before, the holding and the cash after. *)
Definition step : Type := Qc -> res (Holding * Qc).

(** The [for] loop over the sorted siblings: every visit runs the
    sibling's step and writes the sibling back at its own position. *)
Fixpoint visit (order : list (nat * step)) (hs : list Holding) (free_assets : Qc)
  : res (list Holding * Qc) :=
  match order with
  | [] => Ret (hs, free_assets)
  | (i, run) :: order =>
      if decide (free_assets ≤ 0) then Ret (hs, free_assets)
      else
        unpack (h', free_assets') <- run free_assets;;
        visit order (<[i := h']> hs) free_assets'
  end.

(** The siblings in the order the loop visits them, each with its
    position in [holdings] and its step. *)
Definition visiting_order (expected_total_value : Qc)
    (hs : list Holding) (steps : list step) : list (nat * step) :=
  map (fun item : nat * (Holding * step) => (item.1, item.2.2))
    (sorted_descending
       (fun item : nat * (Holding * step) =>
          difference_from_expected expected_total_value item.2.1)
       (zip (seq 0 (length hs)) (zip hs steps))).

(** The loop body of [distribute_free_assets] for one holding. *)
Fixpoint distribute_holding (h : Holding) (expected_total_value free_assets : Qc)
  : res (Holding * Qc) :=
  match h with
  | Group a hs =>
      let expected_value := expected_total_value * expected_weight a in
      let steps := map (fun c => distribute_holding c expected_value) hs in
      unpack (hs', free_assets') <-
        visit (visiting_order expected_value hs steps) hs free_assets;;
      Ret (Group (put_value (sum (map (fun c => value (attrs c)) hs')) a) hs', free_assets')
  | Leaf a s =>
      distribute_leaf a s (expected_total_value * expected_weight a) free_assets
  end.

Definition distribute_free_assets
    (holdings : list Holding) (expected_total_value free_assets : Qc)
  : res (list Holding * Qc) :=
  let steps := map (fun c => distribute_holding c expected_total_value) holdings in
  visit (visiting_order expected_total_value holdings steps) holdings free_assets.

(** The [while free_assets_to_distribute > 0] loop of [calculate];
    [fuel] bounds the number of executions of its body. *)
Fixpoint distribute_while (fuel : nat) (holdings : list Holding)
    (rebalanced_value free_assets_to_distribute : Qc) : res (list Holding * Qc) :=
  if decide (0 < free_assets_to_distribute) then
    match fuel with
    | O => Diverge
    | S fuel =>
        unpack (hs', free_assets_after_distribution) <-
          distribute_free_assets holdings rebalanced_value free_assets_to_distribute;;
        if decide (free_assets_after_distribution = free_assets_to_distribute)
        then Ret (hs', free_assets_to_distribute)
        else distribute_while fuel hs' rebalanced_value free_assets_after_distribution
    end
  else Ret (holdings, free_assets_to_distribute).

End Trading.

Fixpoint total_commissions_of (h : Holding) : Qc :=
  match h with
  | Group _ hs => sum (map total_commissions_of hs)
  | Leaf _ s => commission s
  end.

Definition calculate_total_commissions (holdings : list Holding) : Qc :=
  sum (map total_commissions_of holdings).

(** ** calculate *)

(** The check [process] makes on one list of holdings. *)
Definition weights_valid (hs : list Holding) : bool :=
  match hs with
  | [] => true
  | _ => bool_decide (sum (map (fun h => expected_weight (attrs h)) hs) = 1)
  end.

Fixpoint process_holding (h : Holding) : res (list string) :=
  match h with
  | Group _ hs =>
      if weights_valid hs
      then tickers <- mapM process_holding hs;; Ret (concat tickers)
      else Raise InvalidWeights
  | Leaf _ s => Ret [ticker s]
  end.

(** [process]: the weights of every list of holdings sum to one; the
    tickers of the leaves are collected. *)
Definition process (holdings : list Holding) : res (list string) :=
  if weights_valid holdings
  then tickers <- mapM process_holding holdings;; Ret (concat tickers)
  else Raise InvalidWeights.

(** [get_prices]; [quotes] is what the quote providers know.  The run
    fails when a ticker is known to none of them. *)
Definition get_prices (quotes : gmap string Qc) (tickers : list string)
  : res (gmap string Qc) :=
  if forallb (fun t => bool_decide (is_Some (quotes !! t))) tickers
  then Ret quotes else Raise UnknownTickers.

(** The result of a run: the portfolio's holdings as the run leaves them
    and the triple [calculate] returns. *)
Record Outcome : Type := mkOutcome {
  final_holdings : list Holding;
  rebalanced_value : Qc;
  final_free_assets : Qc;
  commissions : Qc
}.

(** The two weight-correction calls of [calculate], in its order. *)
Definition correct_weights (holdings : list Holding) (rebalance_to : Qc)
  : res (list Holding) :=
  unpack (hs, _) <- correct_weights_for_buying_restriction holdings rebalance_to;;
  unpack (hs, _) <- correct_weights_for_selling_restriction hs rebalance_to;;
  Ret hs.

(** [fuel] bounds the executions of the body of each of the two [while]
    loops. *)
Definition calculate (fuel : nat) (quotes : gmap string Qc)
    (portfolio : Portfolio) (fake_prices : bool) : res Outcome :=
  let spec := portfolio_commission_spec portfolio in
  let volume := min_trade_volume portfolio in
  tickers <- process (portfolio_holdings portfolio);;
  prices <-
    (if fake_prices
     then Ret (list_to_map (map (fun t => (t, 1)) tickers) : gmap string Qc)
     else get_prices quotes tickers);;
  unpack (hs, current_value) <-
    calculate_current_value (portfolio_holdings portfolio) prices;;
  let total_assets := current_value + free_assets portfolio in
  let rebalance_to := total_assets - min_free_assets portfolio in
  hs <-
    (if fake_prices then Ret hs
     else correct_weights (calculate_restrictions hs).1 rebalance_to);;
  unpack (hs, rebalanced) <- rebalance spec volume hs rebalance_to;;
  let commissions := calculate_total_commissions hs in
  let free := total_assets - rebalanced - commissions in
  let free_assets_to_distribute := free - min_free_assets portfolio in
  unpack (hs, free_assets_to_distribute) <-
    distribute_while spec volume true fuel hs rebalanced free_assets_to_distribute;;
  unpack (hs, free_assets_to_distribute) <-
    distribute_while spec volume false fuel hs rebalanced free_assets_to_distribute;;
  Ret (mkOutcome hs
         (sum (map (fun h => value (attrs h)) hs))
         (free_assets_to_distribute + min_free_assets portfolio)
         (calculate_total_commissions hs)).

(** The total assets at the start of a run: the leaves' current shares at
    their prices, and the free assets. *)
Fixpoint position_of (prices : gmap string Qc) (h : Holding) : Qc :=
  match h with
  | Group _ hs => sum (map (position_of prices) hs)
  | Leaf _ s => of_Z (current_shares s) * default 0 (prices !! ticker s)
  end.

Definition total_assets_at_start (prices : gmap string Qc) (portfolio : Portfolio) : Qc :=
  sum (map (position_of prices) (portfolio_holdings portfolio)) + free_assets portfolio.

(** ** A portfolio of two funds, used to run the engine *)

Definition per_share_fee : CommissionSpec :=
  mkCommissionSpec 0 None (Some 1) None.

Definition two_funds : Portfolio :=
  mkPortfolio "two funds" per_share_fee
    [stock "Bonds" (dec 50 1) "A" 0; stock "Stocks" (dec 50 1) "B" 0]
    (dec 1000 1) 0 0.

Definition two_funds_quotes : gmap string Qc :=
  {[ "A" := dec 10 1; "B" := dec 100 1 ]}.

Definition summary (o : Outcome) : Qc * Qc * Qc * list Z :=
  (rebalanced_value o, final_free_assets o, commissions o,
   map (fun h => match h with Leaf _ s => shares s | Group _ _ => 0%Z end) (final_holdings o)).

(** ** The commission formula *)

(** The fee schedule as the sum of its two components, capped, then
    floored at the minimum. *)
Definition percent_component (spec : CommissionSpec) (n : Z) (p : Qc) : Qc :=
  from_option (fun rate => of_Z n * p * rate / dec 100 1) 0 (percent spec).

Definition per_share_component (spec : CommissionSpec) (n : Z) : Qc :=
  from_option (fun rate => of_Z n * rate) 0 (per_share spec).

Definition capped (spec : CommissionSpec) (n : Z) (p : Qc) (fee : Qc) : Qc :=
  from_option (fun rate => Qc_min fee (of_Z n * p * rate / dec 100 1)) fee
    (maximum_percent spec).

Definition a_negative_minimum : CommissionSpec :=
  mkCommissionSpec (dec (-1) 1) None None None.

(** ** Share counts of the two trading passes *)

Definition shares_of (h : Holding) : Z :=
  match h with
  | Leaf _ s => shares s
  | Group _ _ => 0%Z
  end.








(** The minimum-trade requirement in shares, net of the shares the run
    has bought so far. *)
Definition net_requirement (volume : Qc) (s : Stock) : Z :=
  (ceil (volume / price s) - Z.max 0 (shares s - current_shares s))%Z.

(** The clamp of the distributor as the specification words it: the
    count is raised to at least the requirement and to at least 1. *)
Definition raised_to_minimum (volume : Qc) (s : Stock) (extra_shares : Z) : Z :=
  Z.max extra_shares (Z.max 1 (net_requirement volume s)).

Definition raised_extra_shares
    (spec : CommissionSpec) (volume : Qc) (s : Stock) (free_assets : Qc) : Z :=
  let first := raised_to_minimum volume s (floor ((free_assets + commission s) / price s)) in
  let fee := CommissionSpec_calculate spec
               (Z.abs (shares s + first - current_shares s)) (price s) in
  raised_to_minimum volume s (floor ((free_assets + commission s - fee) / price s)).

Definition no_fee : CommissionSpec := mkCommissionSpec 0 None None None.

(** A leaf at 10 a share of which nothing is held yet. *)
Definition ten_stock : Stock := mkStock "T" 0 0 0 (dec 10 1).

Definition ten_alone : list Holding := [Leaf (new_attrs "T" (dec 100 1)) ten_stock].

(** ** Trees *)

(** A holding and everything below it. *)
Fixpoint subholdings (h : Holding) : list Holding :=
  h :: match h with
       | Leaf _ _ => []
       | Group _ hs => concat (map subholdings hs)
       end.

Definition all_holdings (hs : list Holding) : list Holding :=
  concat (map subholdings hs).

(** ** What the restriction propagator is to compute *)





(** A small tree: a locked fund, and a group of a fund that may not be
    bought and a free one. *)
Definition locked_fund : Holding :=
  restrict_buying true (restrict_selling true (stock "Locked" (dec 30 1) "L" 5)).

Definition capped_fund : Holding :=
  restrict_buying true (stock "Capped" (dec 50 1) "C" 2).

Definition free_fund : Holding :=
  stock "Free" (dec 50 1) "F" 7.

Definition small_tree : list Holding :=
  [locked_fund; Group (new_attrs "Rest" (dec 70 1)) [capped_fund; free_fund]].

Definition small_tree_quotes : gmap string Qc :=
  {[ "L" := dec 10 1; "C" := dec 20 1; "F" := dec 1 1 ]}.

Definition valued (quotes : gmap string Qc) (hs : list Holding) : list Holding :=
  match calculate_current_value hs quotes with
  | Ret (hs', _) => hs'
  | _ => []
  end.

(** ** Levels used to run the weight corrector *)

(** Every fund at 1 a share. *)
Definition unit_quotes : gmap string Qc :=
  {[ "A" := 1; "B" := 1; "C" := 1 ]}.

Definition restricted (hs : list Holding) : list Holding :=
  (calculate_restrictions (valued unit_quotes hs)).1.

(** Holdings worth 105: a fund locked against selling that holds 80 where
    half is wanted, another that holds 25 where three tenths are wanted,
    and a free fund. *)
Definition floors_level : list Holding :=
  restricted
    [restrict_selling true (stock "A" (dec 50 1) "A" 80);
     restrict_selling true (stock "B" (dec 30 1) "B" 25);
     stock "C" (dec 20 1) "C" 0].



(** The weights of a list of holdings, those of the groups' members
    included, as fractions in lowest terms. *)
Definition all_weights (hs : list Holding) : list Q :=
  map (fun h => this (weight (attrs h))) (all_holdings hs).


(** ** Settled trees *)



Section Settled.

Variable level : Qc -> list Holding -> bool.



End Settled.

(** ** What a trading pass may do to a tree *)

(** A leaf keeps to its restrictions when it holds no fewer shares than at
    the start if selling is restricted, and no more if buying is. *)
Definition respects (a : Attrs) (s : Stock) (n : Z) : Prop :=
  (truthy (selling_restricted a) = true -> (current_shares s <= n)%Z)
  /\ (truthy (buying_restricted a) = true -> (n <= current_shares s)%Z).

Definition enforced (h : Holding) : Prop :=
  match h with
  | Leaf a s => respects a s (shares s)
  | Group _ _ => True
  end.

(** A trading pass leaves the weight, the restrictions and the snapshot
    of a leaf alone; its share count stays, or moves to a count that
    respects the restrictions. *)
Definition trade (a : Attrs) (s : Stock) (a' : Attrs) (s' : Stock) : Prop :=
  weight a' = weight a
  /\ selling_restricted a' = selling_restricted a
  /\ buying_restricted a' = buying_restricted a
  /\ current_shares s' = current_shares s
  /\ (shares s' = shares s \/ respects a s (shares s')).

(** The rebalancer only runs on a leaf whose share count is its snapshot. *)
Definition rebalanced (a : Attrs) (s : Stock) (a' : Attrs) (s' : Stock) : Prop :=
  shares s = current_shares s /\ trade a s a' s'.

(** The distributor leaves a leaf as it is or commits a purchase of at
    least one share that respects the restrictions. *)
Definition purchase (a : Attrs) (s : Stock) (a' : Attrs) (s' : Stock) : Prop :=
  weight a' = weight a
  /\ selling_restricted a' = selling_restricted a
  /\ buying_restricted a' = buying_restricted a
  /\ current_shares s' = current_shares s
  /\ ((a' = a /\ s' = s)
      \/ ((shares s + 1 <= shares s')%Z /\ respects a s (shares s'))).

(** Two trees of the same shape whose leaves are related one by one and
    whose groups have kept their weights. *)
Inductive evolves (L : Attrs -> Stock -> Attrs -> Stock -> Prop) : Holding -> Holding -> Prop :=
| evolves_leaf (a : Attrs) (s : Stock) (a' : Attrs) (s' : Stock) :
    L a s a' s' -> evolves L (Leaf a s) (Leaf a' s')
| evolves_group (a a' : Attrs) (hs hs' : list Holding) :
    weight a' = weight a -> Forall2 (evolves L) hs hs' ->
    evolves L (Group a hs) (Group a' hs').

(** The same, node by node. *)
Definition same_place (L : Attrs -> Stock -> Attrs -> Stock -> Prop) (h h' : Holding) : Prop :=
  match h, h' with
  | Leaf a s, Leaf a' s' => L a s a' s'
  | Group a _, Group a' _ => weight a' = weight a
  | _, _ => False
  end.

(** ** The order of the two corrections *)

(** The two correction passes in the other order: selling, then buying. *)
Definition correct_weights_selling_first (holdings : list Holding) (rebalance_to : Qc)
  : res (list Holding) :=
  unpack (hs, _) <- correct_weights_for_selling_restriction holdings rebalance_to;;
  unpack (hs, _) <- correct_weights_for_buying_restriction hs rebalance_to;;
  Ret hs.

(** The weights the rebalancer would be given by a run that values the
    holdings, propagates the restrictions and corrects with [correct]. *)
Definition weights_after (correct : list Holding -> Qc -> res (list Holding))
    (quotes : gmap string Qc) (portfolio : Portfolio) : res (list Q) :=
  unpack (hs, current_value) <-
    calculate_current_value (portfolio_holdings portfolio) quotes;;
  let rebalance_to :=
    current_value + free_assets portfolio - min_free_assets portfolio in
  hs <- correct (calculate_restrictions hs).1 rebalance_to;;
  Ret (all_weights hs).

(** Holdings worth 100 and no cash: a fund of 50 locked against selling
    where 30% is wanted, a fund of 10 locked against buying where 30% is
    wanted, and a free fund of 40. *)
Definition three_way : Portfolio :=
  mkPortfolio "three way" no_fee
    [restrict_selling true (stock "Kept" (dec 30 1) "A" 50);
     restrict_buying true (stock "Closed" (dec 30 1) "B" 10);
     stock "Free" (dec 40 1) "C" 40]
    0 0 0.

Definition final_weights (r : res Outcome) : res (list Q) :=
  o <- r;; Ret (all_weights (final_holdings o)).

(** ** Values, positions and bookkeeping *)

(** The value field of a node agrees with what is below it: a leaf's is
    its shares at its price, a group's the sum of its members' values. *)
Definition value_consistent (h : Holding) : Prop :=
  match h with
  | Leaf a s => value a = of_Z (shares s) * price s
  | Group a hs => value a = sum (map (fun c => value (attrs c)) hs)
  end.

(** What the valuation pass leaves on a leaf. *)
Definition snapshot_valued (h : Holding) : Prop :=
  match h with
  | Leaf a s => value a = of_Z (current_shares s) * price s
  | Group _ _ => True
  end.

(** What the valuation pass leaves on any node, given the price table. *)
Definition valued_at (prices : gmap string Qc) (h : Holding) : Prop :=
  match h with
  | Leaf a s =>
      prices !! ticker s = Some (price s)
      /\ current_value a = of_Z (current_shares s) * price s
      /\ value a = current_value a
  | Group a hs =>
      current_value a = sum (map (fun c => current_value (attrs c)) hs)
      /\ value a = current_value a
  end.

(** A holding with every weight, its own and those below it, blanked. *)
Fixpoint unweighted (h : Holding) : Holding :=
  match h with
  | Leaf a s => Leaf (put_weight 0 a) s
  | Group a hs => Group (put_weight 0 a) (map unweighted hs)
  end.

(** A leaf whose share count moved has moved at least the minimum trade
    volume, counted from the start of the run. *)
Definition traded_enough (volume : Qc) (h : Holding) : Prop :=
  match h with
  | Leaf _ s =>
      shares s = current_shares s
      \/ volume ≤ of_Z (Z.abs (shares s - current_shares s)) * price s
  | Group _ _ => True
  end.

(** The balance the distributor keeps: value less commissions. *)
Definition net_value (h : Holding) : Qc :=
  value (attrs h) - total_commissions_of h.

(** ** Portfolio-wide restrictions *)

(** [Portfolio.restrict_selling] and [Portfolio.restrict_buying]. *)
Definition portfolio_restrict_selling (restrict : bool) (p : Portfolio) : Portfolio :=
  mkPortfolio (portfolio_name p) (portfolio_commission_spec p)
    (map (restrict_selling restrict) (portfolio_holdings p))
    (free_assets p) (min_free_assets p) (min_trade_volume p).

Definition portfolio_restrict_buying (restrict : bool) (p : Portfolio) : Portfolio :=
  mkPortfolio (portfolio_name p) (portfolio_commission_spec p)
    (map (restrict_buying restrict) (portfolio_holdings p))
    (free_assets p) (min_free_assets p) (min_trade_volume p).

(** ** Flat view *)

Definition put_expected_weight (w : Qc) (a : Attrs) : Attrs :=
  mkAttrs (name a) w (weight a) (current_value a) (value a)
    (minimum_value a) (selling_restricted a) (sell_blocked a)
    (maximum_value a) (buying_restricted a) (buy_blocked a).

(** The loop body of [flatify]: the holding's two weights are scaled by
    those of the group it is in; a group is replaced by its flattened
    members, a leaf is kept. *)
Fixpoint flatify_holding (expected_weight_of_group weight_of_group : Qc) (h : Holding)
  : list Holding :=
  let a := attrs h in
  let a := put_weight (weight a * weight_of_group)
             (put_expected_weight (expected_weight a * expected_weight_of_group) a) in
  match h with
  | Group _ hs => concat (map (flatify_holding (expected_weight a) (weight a)) hs)
  | Leaf _ s => [Leaf a s]
  end.

Definition flatify (holdings : list Holding) (expected_weight_of_group weight_of_group : Qc)
  : list Holding :=
  concat (map (flatify_holding expected_weight_of_group weight_of_group) holdings).

(** Every level of the tree passes the check of [process], and no group is
    empty (the constructor refuses an empty group). *)
Fixpoint weights_sum_to_one (h : Holding) : bool :=
  match h with
  | Leaf _ _ => true
  | Group _ hs =>
      match hs with [] => false | _ => true end
      && bool_decide (sum (map (fun c => expected_weight (attrs c)) hs) = 1)
      && forallb weights_sum_to_one hs
  end.

(** The tickers of the leaves, left to right. *)
Fixpoint tickers_of (h : Holding) : list string :=
  match h with
  | Leaf _ s => [ticker s]
  | Group _ hs => concat (map tickers_of hs)
  end.

(** Every level of the tree passes the check of [process]. *)
Fixpoint valid_weights (h : Holding) : bool :=
  match h with
  | Leaf _ _ => true
  | Group _ hs => weights_valid hs && forallb valid_weights hs
  end.

(** Two funds whose weights sum to nine tenths. *)
Definition lopsided : Portfolio :=
  mkPortfolio "lopsided" no_fee
    [stock "One" (dec 60 1) "A" 1; stock "Other" (dec 30 1) "B" 1] 0 0 0.

(** Quotes that miss the third fund of [three_way]. *)
Definition two_quotes : gmap string Qc :=
  {[ "A" := 1; "B" := 1 ]}.

(** [h'] is [h] with another weight. *)
Definition reweighted (h h' : Holding) : Prop :=
  h' = set_weight (weight (attrs h')) h.

(** * Properties *)

(** Closed (dis)equalities between rationals, by evaluation. *)
Ltac qc_discr :=
  let H := fresh in
  intros H; apply (f_equal this) in H; vm_compute in H; discriminate H.

Ltac qc_eq := apply Qc_is_canon; vm_compute; reflexivity.

(** ** Commission model *)

Lemma Qc_max_l (a b : Qc) : a ≤ Qc_max a b.
Proof.
  unfold Qc_max. destruct (decide (a < b)) as [Hlt|_].
  - by apply Qclt_le_weak.
  - reflexivity.
Qed.

Lemma Qc_max_r (a b : Qc) : b ≤ Qc_max a b.
Proof.
  unfold Qc_max. destruct (decide (a < b)) as [|Hn].
  - reflexivity.
  - by apply Qcnot_lt_le.
Qed.

Lemma Qc_max_absorb (a b : Qc) : b ≤ a -> Qc_max a b = a.
Proof.
  intros Hle. unfold Qc_max. destruct (decide (a < b)) as [Hlt|]; [|done].
  by apply Qclt_not_le in Hlt.
Qed.

Lemma Qc_min_same (a : Qc) : Qc_min a a = a.
Proof. unfold Qc_min. by destruct (decide (a < a)). Qed.

Lemma of_Z_0 : of_Z 0 = 0.
Proof. by apply Qc_is_canon. Qed.

Lemma commission_as_formula (spec : CommissionSpec) (n : Z) (p : Qc) :
  CommissionSpec_calculate spec n p
  = Qc_max (minimum spec)
      (capped spec n p (percent_component spec n p + per_share_component spec n)).
Proof.
  unfold CommissionSpec_calculate, capped, percent_component, per_share_component.
  destruct (percent spec), (per_share spec), (maximum_percent spec); simpl;
    rewrite ?Qcplus_0_l, ?Qcplus_0_r; reflexivity.
Qed.

Lemma commission_of_no_shares (spec : CommissionSpec) (p : Qc) :
  CommissionSpec_calculate spec 0 p = Qc_max (minimum spec) 0.
Proof.
  rewrite commission_as_formula. f_equal.
  unfold capped, percent_component, per_share_component.
  assert (Hz : forall r : Qc, of_Z 0 * p * r / dec 100 1 = 0).
  { intros r. rewrite of_Z_0. unfold Qcdiv. by rewrite !Qcmult_0_l. }
  assert (Hs : forall r : Qc, of_Z 0 * r = 0).
  { intros r. rewrite of_Z_0. by rewrite Qcmult_0_l. }
  destruct (percent spec), (per_share spec), (maximum_percent spec); simpl;
    rewrite ?Hz, ?Hs, ?Qcplus_0_l, ?Qc_min_same; reflexivity.
Qed.

(** C5, as the claim words its last part: with a negative minimum the
    fee of a trade of no shares is 0, not the minimum. *)
Lemma commission_of_no_shares_is_not_always_the_minimum :
  CommissionSpec_calculate a_negative_minimum 0 (dec 10 1) = 0
  /\ CommissionSpec_calculate a_negative_minimum 0 (dec 10 1)
     <> minimum a_negative_minimum.
Proof. split; [reflexivity|]. intros H. by apply (f_equal this) in H. Qed.

(** C5 (amended): the fee is the configured minimum floored over the sum
    of the percentage-of-notional and per-share components, that sum
    first capped by the percentage cap when one is configured; it is at
    least the minimum, hence non-negative when the minimum is; for a
    trade of no shares it is the larger of the minimum and 0, that is the
    minimum itself when the minimum is non-negative. *)
Theorem commission_model (spec : CommissionSpec) (n : Z) (p : Qc) :
  CommissionSpec_calculate spec n p
  = Qc_max (minimum spec)
      (capped spec n p (percent_component spec n p + per_share_component spec n))
  /\ minimum spec ≤ CommissionSpec_calculate spec n p
  /\ CommissionSpec_calculate spec 0 p = Qc_max (minimum spec) 0
  /\ (0 ≤ minimum spec ->
      0 ≤ CommissionSpec_calculate spec n p
      /\ CommissionSpec_calculate spec 0 p = minimum spec).
Proof.
  split; [apply commission_as_formula|].
  assert (Hmin : minimum spec ≤ CommissionSpec_calculate spec n p).
  { rewrite commission_as_formula. apply Qc_max_l. }
  split; [exact Hmin|].
  split; [apply commission_of_no_shares|].
  intros Hnonneg. split.
  - by etrans.
  - rewrite commission_of_no_shares. by apply Qc_max_absorb.
Qed.

Lemma commission_model_witness :
  0 ≤ minimum per_share_fee
  /\ 0 ≤ CommissionSpec_calculate per_share_fee 7 (dec 10 1)
  /\ CommissionSpec_calculate per_share_fee 0 (dec 10 1) = minimum per_share_fee.
Proof.
  assert (H : 0 ≤ minimum per_share_fee) by done.
  split; [exact H|].
  exact (proj2 (proj2 (proj2 (commission_model per_share_fee 7 (dec 10 1)))) H).
Defined.

(** ** Conservation *)

(** C1, on the portfolio [two_funds] (1000 of cash, two funds at 10 and
    100 a share, a fee of 1 per share): the rebalance pass buys 45 and 4
    shares for 850 and fees of 49, leaving 101; the distributor then buys
    one more share of the second fund for 100, its fee grows from 4 to 5,
    and the cash is charged 100 - 1 instead of 100 + 1.  The run returns
    950 + 2 + 50 = 1002 where the assets at the start were 1000. *)
Theorem distribution_breaks_conservation :
  exists o : Outcome,
    calculate 10 two_funds_quotes two_funds false = Ret o
    /\ map (fun h => match h with Leaf _ s => shares s | Group _ _ => 0%Z end)
           (final_holdings o) = [45; 5]%Z
    /\ rebalanced_value o = dec 950 1
    /\ final_free_assets o = dec 2 1
    /\ commissions o = dec 50 1
    /\ total_assets_at_start two_funds_quotes two_funds = dec 1000 1
    /\ rebalanced_value o + final_free_assets o + commissions o
       <> total_assets_at_start two_funds_quotes two_funds.
Proof.
  eexists. split; [vm_compute; reflexivity|].
  repeat split; try (apply Qc_is_canon; vm_compute; reflexivity).
  intros H. apply (f_equal this) in H. vm_compute in H. discriminate H.
Qed.

(** ** Integer parts *)

Lemma Qc_nonneg_num (q : Qc) : 0 ≤ q -> (0 <= Qnum q)%Z.
Proof.
  unfold Qcle, Qle. simpl. intros H. lia.
Qed.

Lemma truncate_floor (q : Qc) : 0 ≤ q -> truncate q = floor q.
Proof.
  intros H%Qc_nonneg_num. unfold truncate, floor, Qfloor.
  destruct q as [[n d] Hq]. simpl in *.
  apply Z.quot_div_nonneg; lia.
Qed.

Lemma floordiv_ok (a b : Qc) : b <> 0 -> floordiv a b = Ret (truncate (a / b)).
Proof. intros Hb. unfold floordiv. by destruct (decide (b = 0)). Qed.

Lemma divide_ok (a b : Qc) : b <> 0 -> divide a b = Ret (a / b).
Proof. intros Hb. unfold divide. by destruct (decide (b = 0)). Qed.

(** ** Rebalancer, leaf arithmetic *)





(** ** Free-cash distributor, share count *)

Lemma limit_extra_shares_unfold volume s e :
  price s <> 0 ->
  limit_extra_shares_to_minimum volume s e
  = Ret (Z.min e (Z.max 1 (net_requirement volume s))).
Proof.
  intros Hp. unfold limit_extra_shares_to_minimum, net_requirement.
  rewrite (divide_ok _ _ Hp). simpl. do 2 f_equal.
  destruct (decide (shares s > current_shares s)%Z); f_equal; lia.
Qed.

(** C9, as the claim words it: with 95 of cash, no fee, no minimum trade
    volume and a price of 10 the count raised to the minimum is 9; the
    distributor arrives at 1. *)
Lemma distributor_does_not_raise_to_minimum :
  extra_shares_for no_fee 0 ten_stock (dec 95 1) = Ret 1%Z
  /\ raised_extra_shares no_fee 0 ten_stock (dec 95 1) = 9%Z
  /\ limit_extra_shares_to_minimum 0 ten_stock 9 = Ret 1%Z
  /\ raised_to_minimum 0 ten_stock 9 = 9%Z.
Proof. repeat split; vm_compute; reflexivity. Qed.

(** C9 (amended): the candidate count is the integer part of (available
    cash + the leaf's accumulated commission) over price (its floor when
    that quotient is non-negative), then capped at, that is lowered to at
    most, the larger of 1 and the minimum-trade requirement in shares net
    of the shares already bought this run; when the capped count is
    positive it is recomputed with the commission of the new total trade
    taken off the cash, and the same cap is applied again. *)
Theorem distributor_share_cap spec volume s cash :
  price s <> 0 ->
  let cap := Z.max 1 (net_requirement volume s) in
  let first := Z.min (truncate ((cash + commission s) / price s)) cap in
  let fee := CommissionSpec_calculate spec
               (Z.abs (shares s + first - current_shares s)) (price s) in
  (forall e, limit_extra_shares_to_minimum volume s e = Ret (Z.min e cap))
  /\ extra_shares_for spec volume s cash
     = Ret (if decide (first > 0)%Z
            then Z.min (truncate ((cash + commission s - fee) / price s)) cap
            else first)
  /\ (forall r, extra_shares_for spec volume s cash = Ret r -> (r <= cap)%Z)
  /\ (0 ≤ (cash + commission s) / price s ->
      truncate ((cash + commission s) / price s)
      = floor ((cash + commission s) / price s)).
Proof.
  intros Hp cap first fee.
  assert (Hl : forall e, limit_extra_shares_to_minimum volume s e = Ret (Z.min e cap)).
  { intros e. by apply limit_extra_shares_unfold. }
  assert (He : extra_shares_for spec volume s cash
               = Ret (if decide (first > 0)%Z
                      then Z.min (truncate ((cash + commission s - fee) / price s)) cap
                      else first)).
  { unfold extra_shares_for. rewrite (floordiv_ok _ _ Hp). simpl.
    rewrite Hl. simpl. fold first.
    destruct (decide (first > 0)%Z); [|done].
    rewrite (floordiv_ok _ _ Hp). simpl. by rewrite Hl. }
  split; [exact Hl|]. split; [exact He|]. split.
  - intros r Hr. rewrite He in Hr. injection Hr as <-.
    destruct (decide (first > 0)%Z); subst first; lia.
  - apply truncate_floor.
Qed.

Lemma distributor_share_cap_witness :
  price ten_stock <> 0
  /\ extra_shares_for no_fee 0 ten_stock (dec 95 1)
     = Ret (Z.min (truncate ((dec 95 1 + 0 - 0) / dec 10 1)) 1).
Proof.
  assert (Hp : price ten_stock <> 0) by qc_discr.
  split; [exact Hp|].
  exact (proj1 (proj2 (distributor_share_cap no_fee 0 ten_stock (dec 95 1) Hp))).
Defined.

(** ** Induction on holding trees *)

Lemma Holding_ind' (P : Holding -> Prop) :
  (forall a s, P (Leaf a s)) ->
  (forall a hs, Forall P hs -> P (Group a hs)) ->
  forall h, P h.
Proof.
  intros Hleaf Hgroup. fix IH 1. intros [a s|a hs]; [apply Hleaf|].
  apply Hgroup. induction hs as [|h hs IHhs]; constructor; [apply IH|exact IHhs].
Qed.

Lemma Forall_concat_map {A B : Type} (P : B -> Prop) (f : A -> list B) (l : list A) :
  Forall (fun x => Forall P (f x)) l -> Forall P (concat (map f l)).
Proof.
  induction 1 as [|x l Hx _ IH]; simpl; [constructor|].
  apply Forall_app. by split.
Qed.

(** ** Restriction propagator *)










(** ** The result monad *)

Lemma bind_Ret {A B : Type} (m : res A) (k : A -> res B) (b : B) :
  bind m k = Ret b -> exists a, m = Ret a /\ k a = Ret b.
Proof. destruct m as [a| |]; simpl; [eauto|done|done]. Qed.


Lemma mapM_Forall2 {A B : Type} (f : A -> res B) (l : list A) (l' : list B) :
  mapM f l = Ret l' -> Forall2 (fun x y => f x = Ret y) l l'.
Proof.
  revert l'. induction l as [|x l IH]; intros l' H; simpl in H.
  - injection H as <-. constructor.
  - apply bind_Ret in H as (y & Hy & H).
    apply bind_Ret in H as (ys & Hys & H). injection H as <-.
    constructor; [exact Hy|by apply IH].
Qed.

Lemma Forall2_mapM {A B : Type} (f : A -> res B) (l : list A) (l' : list B) :
  Forall2 (fun x y => f x = Ret y) l l' -> mapM f l = Ret l'.
Proof.
  induction 1 as [|x y l l' Hxy _ IH]; simpl; [done|].
  rewrite Hxy. simpl. rewrite IH. done.
Qed.


(** ** Weight corrector: the correctable set shrinks *)


Lemma weight_set_weight (w : Qc) (h : Holding) : weight (attrs (set_weight w h)) = w.
Proof. by destruct h. Qed.











(** ** Weight corrector: the loop and the recursion return *)

Section CorrectorTermination.

Variable iteration : Qc -> list Holding -> res (list Holding * bool * bool).

(** The number of correctable holdings of a level. *)
Variable correctable : Qc -> list Holding -> nat.

Hypothesis correctable_le : forall etv hs, (correctable etv hs <= length hs)%nat.

Hypothesis iteration_returns : forall etv hs, iteration etv hs <> Diverge.

Hypothesis retry_shrinks : forall etv hs hs' ok,
  iteration etv hs = Ret (hs', ok, true) ->
  (correctable etv hs' < correctable etv hs < length hs)%nat.







End CorrectorTermination.







(** ** Weight corrector: running it twice *)


Section CorrectorFixedPoint.

Variable iteration : Qc -> list Holding -> res (list Holding * bool * bool).
Variable level : Qc -> list Holding -> bool.

Hypothesis level_fixed : forall etv hs,
  level etv hs = true -> exists ok, iteration etv hs = Ret (hs, ok, false).





End CorrectorFixedPoint.





(** ** Trading passes: what happens to a leaf *)

Lemma respects_of_guards (a : Attrs) (s : Stock) (n : Z) :
  bool_decide (n < current_shares s)%Z && truthy (selling_restricted a) = false ->
  bool_decide (n > current_shares s)%Z && truthy (buying_restricted a) = false ->
  respects a s n.
Proof.
  intros H1 H2. split; intros Ht; rewrite Ht, andb_true_r in *.
  - apply bool_decide_eq_false in H1. lia.
  - apply bool_decide_eq_false in H2. lia.
Qed.

Lemma trade_refl (a : Attrs) (s : Stock) : trade a s a s.
Proof. unfold trade. auto 10. Qed.

Lemma purchase_refl (a : Attrs) (s : Stock) : purchase a s a s.
Proof. unfold purchase. auto 10. Qed.

Lemma rebalance_leaf_rebalanced spec volume a s etv h :
  rebalance_leaf spec volume a s etv = Ret h ->
  exists a' s', h = Leaf a' s' /\ rebalanced a s a' s'.
Proof.
  unfold rebalance_leaf.
  destruct (decide (shares s ≠ current_shares s)) as [|Hs]; [done|].
  assert (Hs' : shares s = current_shares s) by lia. clear Hs.
  assert (Hsame : forall h0, Ret (Leaf a s) = Ret h0 ->
            exists a' s', h0 = Leaf a' s' /\ rebalanced a s a' s').
  { intros h0 [= <-]. exists a, s. split; [done|]. split; [done|apply trade_refl]. }
  assert (Hflag : forall a0 h0, Ret (Leaf a0 s) = Ret h0 ->
            weight a0 = weight a -> selling_restricted a0 = selling_restricted a ->
            buying_restricted a0 = buying_restricted a ->
            exists a' s', h0 = Leaf a' s' /\ rebalanced a s a' s').
  { intros a0 h0 [= <-] ? ? ?. exists a0, s. split; [done|]. split; [done|].
    unfold trade. auto 10. }
  destruct (decide (get_weight etv (current_value a) ≠ weight a)) as [_|_];
    [|by apply Hsame].
  intros H. apply bind_Ret in H as (n0 & _ & H).
  apply bind_Ret in H as (n & _ & H).
  destruct (decide (n ≠ current_shares s)) as [_|_]; [|by apply Hsame].
  destruct (bool_decide (n < current_shares s)%Z && truthy (selling_restricted a)) eqn:E1.
  { by apply (Hflag _ _ H). }
  destruct (bool_decide (n > current_shares s)%Z && truthy (buying_restricted a)) eqn:E2.
  { by apply (Hflag _ _ H). }
  destruct (decide (of_Z (Z.abs (n - current_shares s)) * price s < volume)) as [_|_].
  { destruct (decide (n < current_shares s)%Z) as [_|_]; by apply (Hflag _ _ H). }
  injection H as <-. eexists _, _. split; [reflexivity|]. split; [done|].
  unfold trade. simpl. repeat split; try done.
  right. by apply respects_of_guards.
Qed.

Lemma distribute_leaf_purchase spec volume underfunded a s ev free h free' :
  distribute_leaf spec volume underfunded a s ev free = Ret (h, free') ->
  (h = Leaf a s /\ free' = free)
  \/ (exists extra, (1 <= extra)%Z
        /\ extra_shares_for spec volume s free = Ret extra
        /\ trade_refused volume a s (shares s + extra) = false
        /\ respects a s (shares s + extra)
        /\ h = change a s (shares s + extra) spec
        /\ free' = free - (of_Z extra * price s
                           - (commission_for s (shares s + extra) spec - commission s))).
Proof.
  unfold distribute_leaf.
  destruct (negb underfunded || bool_decide (value a < ev));
    [|by intros [= <- <-]; left].
  intros H. apply bind_Ret in H as (extra & Hextra & H).
  destruct (decide (extra > 0)%Z); [|by injection H as <- <-; left].
  destruct (trade_refused volume a s (shares s + extra)) eqn:E;
    [by injection H as <- <-; left|].
  injection H as <- <-. right. exists extra.
  split; [lia|]. split; [done|]. split; [done|]. split; [|done].
  unfold trade_refused in E. apply orb_false_iff in E as [E _].
  apply orb_false_iff in E as [E1 E2]. by apply respects_of_guards.
Qed.

Lemma distribute_leaf_evolves spec volume underfunded a s ev free h free' :
  distribute_leaf spec volume underfunded a s ev free = Ret (h, free') ->
  evolves purchase (Leaf a s) h.
Proof.
  intros [[-> _]|(extra & Hextra & _ & _ & Hr & -> & _)]%distribute_leaf_purchase.
  - constructor. apply purchase_refl.
  - constructor. unfold purchase. simpl. repeat split; try done.
    right. split; [lia|done].
Qed.

(** ** Trading passes: what happens to a tree *)

Lemma Forall2_from_Forall {A B : Type} (P : A -> Prop) (Q R : A -> B -> Prop)
    (l : list A) (k : list B) :
  Forall P l -> Forall2 Q l k -> (forall x y, P x -> Q x y -> R x y) -> Forall2 R l k.
Proof.
  intros HP HQ Himp. induction HQ as [|x y l k Hxy _ IH]; [constructor|].
  apply Forall_cons in HP as [Hx HP]. constructor; [by apply Himp|by apply IH].
Qed.

Lemma rebalance_holding_evolves spec volume h etv h' :
  rebalance_holding spec volume h etv = Ret h' -> evolves rebalanced h h'.
Proof.
  revert etv h'. induction h as [a s|a hs IH] using Holding_ind'; intros etv h' H.
  - simpl in H. apply rebalance_leaf_rebalanced in H as (a' & s' & -> & Hr).
    by constructor.
  - simpl in H. apply bind_Ret in H as (hs' & Hmap & H). injection H as <-.
    constructor; [done|]. apply mapM_Forall2 in Hmap.
    eapply Forall2_from_Forall; [exact IH|exact Hmap|]. simpl. eauto.
Qed.

Lemma rebalance_evolves spec volume hs etv hs' total :
  rebalance spec volume hs etv = Ret (hs', total) ->
  Forall2 (evolves rebalanced) hs hs'.
Proof.
  unfold rebalance. intros H. apply bind_Ret in H as (hs1 & Hmap & H).
  injection H as <- _. apply mapM_Forall2 in Hmap.
  eapply Forall2_impl; [exact Hmap|]. simpl. intros h h'.
  apply rebalance_holding_evolves.
Qed.

(** The visiting order only holds positions of the list, each with the
    step of the holding at that position. *)
Lemma insert_descending_elem {A : Type} (key : A -> Qc) (x y : A) (l : list A) :
  y ∈ insert_descending key x l -> y = x \/ y ∈ l.
Proof.
  induction l as [|z l IH]; simpl.
  - intros ->%list_elem_of_singleton. by left.
  - destruct (decide (key x < key z)).
    + intros [->|Hy]%elem_of_cons; [right; left|].
      destruct (IH Hy) as [->|?]; [by left|right; by right].
    + intros [->|Hy]%elem_of_cons; [by left|by right].
Qed.

Lemma sorted_descending_elem {A : Type} (key : A -> Qc) (y : A) (l : list A) :
  y ∈ sorted_descending key l -> y ∈ l.
Proof.
  unfold sorted_descending. induction l as [|x l IH]; simpl; [done|].
  intros [->|Hy]%insert_descending_elem; [left|right; by apply IH].
Qed.

Lemma zip_seq_elem {A : Type} (n i : nat) (x : A) (l : list A) :
  (i, x) ∈ zip (seq n (length l)) l -> (n <= i)%nat /\ l !! (i - n)%nat = Some x.
Proof.
  revert n. induction l as [|y l IH]; intros n; simpl.
  - by intros ?%elem_of_nil.
  - intros [[= -> ->]|H]%elem_of_cons.
    + split; [lia|]. by rewrite Nat.sub_diag.
    + apply IH in H as [Hle Hl]. split; [lia|].
      replace (i - n)%nat with (S (i - S n)) by lia. done.
Qed.

Lemma visiting_order_elem etv hs (f : Holding -> step) i run :
  (i, run) ∈ visiting_order etv hs (map f hs) ->
  exists c, hs !! i = Some c /\ run = f c.
Proof.
  unfold visiting_order. intros H.
  apply list_elem_of_In, in_map_iff in H as ([j [c k]] & Heq & H).
  simpl in Heq. injection Heq as Hj Hk. subst i run.
  apply list_elem_of_In, sorted_descending_elem in H.
  assert (Hlen : length hs = length (zip hs (map f hs))).
  { rewrite length_zip_with, length_map. lia. }
  rewrite Hlen in H. apply zip_seq_elem in H as [_ H].
  rewrite Nat.sub_0_r in H.
  pose proof H as Hin. apply list_elem_of_lookup_2, list_elem_of_In in Hin.
  assert (Hk : k = f c).
  { clear -Hin. induction hs as [|x hs IH]; [done|].
    simpl in Hin. destruct Hin as [[= -> ->]|Hin]; [done|by apply IH]. }
  exists c. split; [|done].
  clear -H. revert j H. induction hs as [|x hs IH]; intros [|j]; simpl; try done.
  - by intros [= -> _].
  - apply IH.
Qed.

Lemma visit_related (R : Holding -> Holding -> Prop) order hs0 hs free hs' free' :
  Forall2 R hs0 hs ->
  (forall i run, (i, run) ∈ order ->
     exists c, hs0 !! i = Some c /\ forall f h' f', run f = Ret (h', f') -> R c h') ->
  visit order hs free = Ret (hs', free') ->
  Forall2 R hs0 hs'.
Proof.
  revert hs free. induction order as [|[i run] order IH]; intros hs free HR Hord H.
  - simpl in H. by injection H as <- _.
  - simpl in H. destruct (decide (free ≤ 0)); [by injection H as <- _|].
    apply bind_Ret in H as ([h1 f1] & Hrun & H).
    destruct (Hord i run) as (c & Hc & Hstep); [left|].
    apply (IH (<[i:=h1]> hs) f1); [|by intros; apply Hord; right|done].
    rewrite <- (list_insert_id hs0 i c) by done.
    apply Forall2_insert; [done|by eapply Hstep].
Qed.

Section Distribution.

Variable commission_spec : CommissionSpec.
Variable volume : Qc.
Variable underfunded : bool.

Lemma distribute_holding_evolves h etv free h' free' :
  distribute_holding commission_spec volume underfunded h etv free = Ret (h', free') ->
  evolves purchase h h'.
Proof.
  revert etv free h' free'.
  induction h as [a s|a hs IH] using Holding_ind'; intros etv free h' free' H.
  - simpl in H. by apply distribute_leaf_evolves in H.
  - simpl in H. apply bind_Ret in H as ([hs1 f1] & Hvisit & H). injection H as <- _.
    constructor; [done|].
    eapply visit_related; [|intros i run Hi|exact Hvisit].
    + clear. induction hs; constructor; [|done].
      clear. induction a using Holding_ind'.
      * constructor. apply purchase_refl.
      * constructor; [done|]. induction H; by constructor.
    + apply visiting_order_elem in Hi as (c & Hc & ->). exists c. split; [done|].
      intros f h2 f2. rewrite Forall_forall in IH.
      apply IH. by eapply list_elem_of_lookup_2.
Qed.

Lemma evolves_refl (L : Attrs -> Stock -> Attrs -> Stock -> Prop) :
  (forall a s, L a s a s) -> forall h, evolves L h h.
Proof.
  intros HL h. induction h as [a s|a hs IH] using Holding_ind'.
  - by constructor.
  - constructor; [done|]. induction IH; by constructor.
Qed.

Lemma distribute_free_assets_evolves hs etv free hs' free' :
  distribute_free_assets commission_spec volume underfunded hs etv free = Ret (hs', free') ->
  Forall2 (evolves purchase) hs hs'.
Proof.
  unfold distribute_free_assets. intros H.
  eapply visit_related; [|intros i run Hi|exact H].
  - apply Forall_Forall2_diag, Forall_forall. intros h _.
    apply evolves_refl, purchase_refl.
  - apply visiting_order_elem in Hi as (c & Hc & ->). exists c. split; [done|].
    intros f h2 f2. apply distribute_holding_evolves.
Qed.

End Distribution.

(** ** Trees, node by node *)

Lemma Forall2_concat {A B : Type} (R : A -> B -> Prop) (ls : list (list A)) (ks : list (list B)) :
  Forall2 (Forall2 R) ls ks -> Forall2 R (concat ls) (concat ks).
Proof.
  induction 1 as [|l k ls ks Hlk _ IH]; simpl; [constructor|].
  by apply Forall2_app.
Qed.

Lemma evolves_subholdings (L : Attrs -> Stock -> Attrs -> Stock -> Prop) h h' :
  evolves L h h' -> Forall2 (same_place L) (subholdings h) (subholdings h').
Proof.
  revert h'. induction h as [a s|a hs IH] using Holding_ind'; intros h' H.
  - inversion H; subst. simpl. by repeat constructor.
  - inversion H as [|? a' ? hs' Hw Hhs]; subst. simpl. constructor; [done|].
    apply Forall2_concat. clear H Hw.
    induction Hhs as [|c c' cs cs' Hc _ IHcs]; simpl; [constructor|].
    apply Forall_cons in IH as [IHc IH].
    constructor; [by apply IHc|by apply IHcs].
Qed.

Lemma evolves_all_holdings (L : Attrs -> Stock -> Attrs -> Stock -> Prop) hs hs' :
  Forall2 (evolves L) hs hs' ->
  Forall2 (same_place L) (all_holdings hs) (all_holdings hs').
Proof.
  intros H. unfold all_holdings. apply Forall2_concat.
  induction H as [|h h' hs hs' Hh _ IH]; simpl; constructor;
    [by apply evolves_subholdings|done].
Qed.

Lemma same_place_weights (L : Attrs -> Stock -> Attrs -> Stock -> Prop) l l' :
  (forall a s a' s', L a s a' s' -> weight a' = weight a) ->
  Forall2 (same_place L) l l' ->
  map (fun h => this (weight (attrs h))) l' = map (fun h => this (weight (attrs h))) l.
Proof.
  intros HL H. induction H as [|h h' l l' Hh _ IH]; simpl; [done|].
  f_equal; [|done]. f_equal.
  destruct h, h'; simpl in *; try done. by eapply HL.
Qed.

Lemma purchase_keeps_enforced l l' :
  Forall2 (same_place purchase) l l' -> Forall enforced l -> Forall enforced l'.
Proof.
  induction 1 as [|h h' l l' Hh _ IH]; intros He; [constructor|].
  apply Forall_cons in He as [Hh0 He]. constructor; [|by apply IH].
  destruct h as [a s|], h' as [a' s'|]; simpl in *; try done.
  destruct Hh as (_ & Hs & Hb & Hc & [[-> ->]|[_ Hr]]); [done|].
  unfold respects in *. by rewrite Hs, Hb, Hc.
Qed.

Lemma rebalanced_is_enforced l l' :
  Forall2 (same_place rebalanced) l l' -> Forall enforced l'.
Proof.
  induction 1 as [|h h' l l' Hh _ IH]; constructor; [|done].
  destruct h as [a s|], h' as [a' s'|]; simpl in *; try done.
  destruct Hh as (Hcur & _ & Hs & Hb & Hc & [Hsame|Hr]);
    unfold respects in *; rewrite Hs, Hb, Hc.
  - rewrite Hsame, Hcur. split; intros _; lia.
  - done.
Qed.

Lemma purchase_shares l l' :
  Forall2 (same_place purchase) l l' ->
  Forall2 (fun n n' => n' = n \/ (n + 1 <= n')%Z) (map shares_of l) (map shares_of l').
Proof.
  induction 1 as [|h h' l l' Hh _ IH]; simpl; constructor; [|done].
  destruct h as [a s|], h' as [a' s'|]; simpl in *; try done; [|by left].
  destruct Hh as (_ & _ & _ & _ & [[_ ->]|[Hle _]]); [by left|by right].
Qed.

(** ** The stages of a run *)

Lemma calculate_stages fuel quotes portfolio fake o :
  calculate fuel quotes portfolio fake = Ret o ->
  exists tickers prices hs0 current hs1 hs2 rebalanced_to hs3 free3 hs4 free4,
    let spec := portfolio_commission_spec portfolio in
    let volume := min_trade_volume portfolio in
    let total_assets := current + free_assets portfolio in
    let rebalance_to := total_assets - min_free_assets portfolio in
    process (portfolio_holdings portfolio) = Ret tickers
    /\ (if fake
        then Ret (list_to_map (map (fun t => (t, 1)) tickers) : gmap string Qc)
        else get_prices quotes tickers) = Ret prices
    /\ calculate_current_value (portfolio_holdings portfolio) prices = Ret (hs0, current)
    /\ (if fake then Ret hs0
        else correct_weights (calculate_restrictions hs0).1 rebalance_to) = Ret hs1
    /\ rebalance spec volume hs1 rebalance_to = Ret (hs2, rebalanced_to)
    /\ distribute_while spec volume true fuel hs2 rebalanced_to
         (total_assets - rebalanced_to - calculate_total_commissions hs2
          - min_free_assets portfolio) = Ret (hs3, free3)
    /\ distribute_while spec volume false fuel hs3 rebalanced_to free3 = Ret (hs4, free4)
    /\ o = mkOutcome hs4 (sum (map (fun h => value (attrs h)) hs4))
             (free4 + min_free_assets portfolio) (calculate_total_commissions hs4).
Proof.
  unfold calculate. intros H.
  apply bind_Ret in H as (tickers & Ht & H).
  apply bind_Ret in H as (prices & Hp & H).
  apply bind_Ret in H as ([hs0 current] & Hv & H).
  apply bind_Ret in H as (hs1 & Hc & H).
  apply bind_Ret in H as ([hs2 rv] & Hr & H).
  apply bind_Ret in H as ([hs3 f3] & Hd1 & H).
  apply bind_Ret in H as ([hs4 f4] & Hd2 & H).
  injection H as <-.
  exists tickers, prices, hs0, current, hs1, hs2, rv, hs3, f3, hs4, f4.
  simpl. auto 10.
Qed.

Lemma distribute_while_keeps (P : list Holding -> Prop) spec volume underfunded :
  (forall hs etv free hs' free',
     distribute_free_assets spec volume underfunded hs etv free = Ret (hs', free') ->
     P hs -> P hs') ->
  forall fuel hs rv free hs' free',
    distribute_while spec volume underfunded fuel hs rv free = Ret (hs', free') ->
    P hs -> P hs'.
Proof.
  intros Hstep fuel. induction fuel as [|fuel IH]; intros hs rv free hs' free' H HP;
    simpl in H; destruct (decide (0 < free)); try done; try (by injection H as <- _).
  apply bind_Ret in H as ([hs1 f1] & Hd & H).
  apply Hstep in Hd; [|done].
  destruct (decide (f1 = free)); [by injection H as <- _|].
  by eapply IH.
Qed.

Lemma distribute_free_assets_keeps_enforced spec volume underfunded hs etv free hs' free' :
  distribute_free_assets spec volume underfunded hs etv free = Ret (hs', free') ->
  Forall enforced (all_holdings hs) -> Forall enforced (all_holdings hs').
Proof.
  intros H. apply purchase_keeps_enforced, evolves_all_holdings.
  by eapply distribute_free_assets_evolves.
Qed.

Lemma distribute_free_assets_keeps_weights spec volume underfunded hs etv free hs' free' :
  distribute_free_assets spec volume underfunded hs etv free = Ret (hs', free') ->
  all_weights hs' = all_weights hs.
Proof.
  intros H. unfold all_weights.
  apply (same_place_weights purchase); [by intros ???? (? & _)|].
  by eapply evolves_all_holdings, distribute_free_assets_evolves.
Qed.

Lemma rebalance_keeps_weights spec volume hs etv hs' total :
  rebalance spec volume hs etv = Ret (hs', total) ->
  all_weights hs' = all_weights hs.
Proof.
  intros H. unfold all_weights.
  apply (same_place_weights rebalanced); [by intros ???? (_ & ? & _)|].
  by eapply evolves_all_holdings, rebalance_evolves.
Qed.

(** ** Restriction enforcement *)

(** C3: the rebalance pass and every invocation of the distribution pass
    relate the tree before to the tree after leaf by leaf: the restriction
    flags and [current_shares] are untouched, and a leaf's shares either
    stay as they were (a refused trade leaves them) or move to a count that
    is not below [current_shares] when selling is restricted and not above
    it when buying is.  Hence after the rebalance pass, after every
    distribution pass that starts from such a tree, and at the end of
    every run, no selling-restricted leaf holds fewer and no
    buying-restricted leaf holds more than [current_shares]. *)
Theorem restriction_enforcement (spec : CommissionSpec) (volume : Qc) :
  (forall hs etv hs' total,
     rebalance spec volume hs etv = Ret (hs', total) ->
     Forall2 (evolves rebalanced) hs hs' /\ Forall enforced (all_holdings hs'))
  /\ (forall underfunded hs etv free hs' free',
        distribute_free_assets spec volume underfunded hs etv free = Ret (hs', free') ->
        Forall2 (evolves purchase) hs hs'
        /\ (Forall enforced (all_holdings hs) -> Forall enforced (all_holdings hs')))
  /\ (forall fuel quotes portfolio fake o,
        portfolio_commission_spec portfolio = spec ->
        min_trade_volume portfolio = volume ->
        calculate fuel quotes portfolio fake = Ret o ->
        Forall enforced (all_holdings (final_holdings o))).
Proof.
  split; [|split].
  - intros hs etv hs' total H. apply rebalance_evolves in H.
    split; [done|]. by eapply rebalanced_is_enforced, evolves_all_holdings.
  - intros underfunded hs etv free hs' free' H. split.
    + by eapply distribute_free_assets_evolves.
    + by eapply distribute_free_assets_keeps_enforced.
  - intros fuel quotes portfolio fake o <- <- H.
    apply calculate_stages in H
      as (tickers & prices & hs0 & current & hs1 & hs2 & rv & hs3 & f3 & hs4 & f4 & H).
    simpl in H. destruct H as (_ & _ & _ & _ & Hr & Hd1 & Hd2 & ->). simpl.
    eapply (distribute_while_keeps (fun hs => Forall enforced (all_holdings hs)));
      [apply distribute_free_assets_keeps_enforced|exact Hd2|].
    eapply (distribute_while_keeps (fun hs => Forall enforced (all_holdings hs)));
      [apply distribute_free_assets_keeps_enforced|exact Hd1|].
    apply rebalance_evolves in Hr.
    by eapply rebalanced_is_enforced, evolves_all_holdings.
Qed.

Lemma restriction_enforcement_witness :
  exists o, calculate 10 unit_quotes three_way false = Ret o
       /\ Forall enforced (all_holdings (final_holdings o)).
Proof.
  eexists. split; [vm_compute; reflexivity|].
  eapply (proj2 (proj2 (restriction_enforcement no_fee 0)) 10%nat unit_quotes three_way false);
    [reflexivity|reflexivity|vm_compute; reflexivity].
Defined.

(** ** Free-cash distribution only buys *)

(** C10: on a leaf the distributor either changes nothing or commits a
    trade to [shares + extra_shares] with [extra_shares >= 1]; over a whole
    invocation of the pass every leaf's share count stays or grows by at
    least one, so none decreases. *)
Theorem distribution_only_buys (spec : CommissionSpec) (volume : Qc) (underfunded : bool) :
  (forall a s ev free h free',
     distribute_leaf spec volume underfunded a s ev free = Ret (h, free') ->
     (h = Leaf a s /\ free' = free)
     \/ (exists extra, (1 <= extra)%Z /\ h = change a s (shares s + extra) spec
                       /\ shares_of h = (shares s + extra)%Z))
  /\ (forall hs etv free hs' free',
        distribute_free_assets spec volume underfunded hs etv free = Ret (hs', free') ->
        Forall2 (evolves purchase) hs hs'
        /\ Forall2 (fun n n' => n' = n \/ (n + 1 <= n')%Z)
             (map shares_of (all_holdings hs)) (map shares_of (all_holdings hs'))).
Proof.
  split.
  - intros a s ev free h free' H.
    apply distribute_leaf_purchase in H as [?|(extra & ? & _ & _ & _ & -> & _)];
      [by left|right]. by exists extra.
  - intros hs etv free hs' free' H.
    apply distribute_free_assets_evolves in H. split; [done|].
    by apply purchase_shares, evolves_all_holdings.
Qed.

Lemma distribution_only_buys_witness :
  exists hs' free',
    distribute_free_assets no_fee 0 false ten_alone (dec 95 1) (dec 95 1) = Ret (hs', free')
    /\ Forall2 (fun n n' => n' = n \/ (n + 1 <= n')%Z)
         (map shares_of (all_holdings ten_alone)) (map shares_of (all_holdings hs')).
Proof.
  pose proof (proj2 (distribution_only_buys no_fee 0 false)
                ten_alone (dec 95 1) (dec 95 1)) as H.
  eexists _, _. split; [vm_compute; reflexivity|].
  edestruct H as [_ Hshares]; [|exact Hshares]. vm_compute. reflexivity.
Defined.

(** ** The order of the passes *)

(** C2, as the claim words it: on [three_way] the run ends with the
    weights 27/70, 49/190 and 42/95, those of the buying correction
    followed by the selling correction; the selling correction followed by
    the buying correction gives 147/410, 3/14 and 14/41. *)
Lemma selling_correction_does_not_come_first :
  final_weights (calculate 10 unit_quotes three_way false)
  = Ret [27 # 70; 49 # 190; 42 # 95]%Q
  /\ weights_after correct_weights unit_quotes three_way
     = Ret [27 # 70; 49 # 190; 42 # 95]%Q
  /\ weights_after correct_weights_selling_first unit_quotes three_way
     = Ret [147 # 410; 3 # 14; 14 # 41]%Q
  /\ final_weights (calculate 10 unit_quotes three_way false)
     <> weights_after correct_weights_selling_first unit_quotes three_way.
Proof.
  repeat split; try (vm_compute; reflexivity).
  vm_compute. discriminate.
Qed.

Lemma distribute_while_keeps_weights spec volume underfunded fuel hs rv free hs' free' :
  distribute_while spec volume underfunded fuel hs rv free = Ret (hs', free') ->
  all_weights hs' = all_weights hs.
Proof.
  intros H.
  apply (distribute_while_keeps (fun l => all_weights l = all_weights hs)
           spec volume underfunded) in H; [done| |done].
  intros l etv f l' f' Hd Hl. rewrite <- Hl.
  by eapply distribute_free_assets_keeps_weights.
Qed.

(** C2 (amended): in every run of [calculate] with real prices that
    completes, the holdings are valued, the restrictions propagated, the
    full buying-restriction correction is run over the whole tree and then
    the full selling-restriction correction, on the weights the buying
    correction left; the rebalance pass and the free-cash distribution
    that follow work with exactly those weights and leave them as they
    are. *)
Theorem correction_order fuel quotes portfolio o :
  calculate fuel quotes portfolio false = Ret o ->
  exists valued current bought ok_buying sold ok_selling,
    let rebalance_to := current + free_assets portfolio - min_free_assets portfolio in
    calculate_current_value (portfolio_holdings portfolio) quotes = Ret (valued, current)
    /\ correct_weights_for_buying_restriction (calculate_restrictions valued).1 rebalance_to
       = Ret (bought, ok_buying)
    /\ correct_weights_for_selling_restriction bought rebalance_to = Ret (sold, ok_selling)
    /\ all_weights (final_holdings o) = all_weights sold.
Proof.
  intros H.
  apply calculate_stages in H
    as (tickers & prices & hs0 & current & hs1 & hs2 & rv & hs3 & f3 & hs4 & f4 & H).
  simpl in H. destruct H as (_ & Hp & Hv & Hc & Hr & Hd1 & Hd2 & ->).
  unfold get_prices in Hp. destruct (forallb _ tickers); [|done]. injection Hp as <-.
  unfold correct_weights in Hc.
  apply bind_Ret in Hc as ([bought okb] & Hb & Hc).
  apply bind_Ret in Hc as ([sold oks] & Hs & Hc). injection Hc as <-.
  exists hs0, current, bought, okb, sold, oks. simpl.
  split; [done|]. split; [done|]. split; [done|].
  apply distribute_while_keeps_weights in Hd1, Hd2.
  apply rebalance_keeps_weights in Hr. congruence.
Qed.

Lemma correction_order_witness :
  exists o, calculate 10 unit_quotes three_way false = Ret o
       /\ exists sold, all_weights (final_holdings o) = all_weights sold
                  /\ all_weights sold = [27 # 70; 49 # 190; 42 # 95]%Q.
Proof.
  eexists. split; [vm_compute; reflexivity|].
  edestruct (correction_order 10 unit_quotes three_way)
    as (valued & current & bought & okb & sold & oks & _ & _ & _ & Hw);
    [vm_compute; reflexivity|].
  exists sold. split; [exact Hw|]. rewrite <- Hw. vm_compute. reflexivity.
Defined.

(** * Further properties of the engine *)

(** ** Restrictions set on holdings *)

Lemma restrict_selling_settles (b : bool) (h : Holding) :
  forall b', restrict_selling b' (restrict_selling b h) = restrict_selling b h.
Proof.
  induction h as [a s|a hs IH] using Holding_ind'; intros b'; simpl.
  - destruct (selling_restricted a) as [r|] eqn:E; simpl; by rewrite ?E.
  - f_equal. rewrite map_map. apply map_ext_Forall.
    eapply Forall_impl; [exact IH|]. simpl. auto.
Qed.

Lemma restrict_buying_settles (b : bool) (h : Holding) :
  forall b', restrict_buying b' (restrict_buying b h) = restrict_buying b h.
Proof.
  induction h as [a s|a hs IH] using Holding_ind'; intros b'; simpl.
  - destruct (buying_restricted a) as [r|] eqn:E; simpl; by rewrite ?E.
  - f_equal. rewrite map_map. apply map_ext_Forall.
    eapply Forall_impl; [exact IH|]. simpl. auto.
Qed.

(** A restriction applied to a holding or a portfolio never overrides a
    flag that is already set: whatever was applied first stays, and a
    later call, with either value, changes nothing. *)
Theorem first_restriction_wins (b b' : bool) :
  (forall h, restrict_selling b' (restrict_selling b h) = restrict_selling b h)
  /\ (forall h, restrict_buying b' (restrict_buying b h) = restrict_buying b h)
  /\ (forall p, portfolio_restrict_selling b' (portfolio_restrict_selling b p)
                = portfolio_restrict_selling b p)
  /\ (forall p, portfolio_restrict_buying b' (portfolio_restrict_buying b p)
                = portfolio_restrict_buying b p).
Proof.
  split; [intros h; apply restrict_selling_settles|].
  split; [intros h; apply restrict_buying_settles|].
  split; intros p; unfold portfolio_restrict_selling, portfolio_restrict_buying;
    simpl; f_equal; rewrite map_map; apply map_ext; intros h.
  - apply restrict_selling_settles.
  - apply restrict_buying_settles.
Qed.

(** ** The weights check *)

Lemma mapM_process_holding (hs : list Holding) :
  Forall (fun h => process_holding h
                   = if valid_weights h then Ret (tickers_of h) else Raise InvalidWeights) hs ->
  mapM process_holding hs
  = if forallb valid_weights hs then Ret (map tickers_of hs) else Raise InvalidWeights.
Proof.
  induction 1 as [|h hs Hh _ IH]; simpl; [done|].
  rewrite Hh. destruct (valid_weights h); simpl; [|done].
  rewrite IH. by destruct (forallb valid_weights hs).
Qed.

Lemma process_holding_spec (h : Holding) :
  process_holding h = if valid_weights h then Ret (tickers_of h) else Raise InvalidWeights.
Proof.
  induction h as [a s|a hs IH] using Holding_ind'; [done|].
  simpl. destruct (weights_valid hs); simpl; [|done].
  rewrite (mapM_process_holding _ IH). by destruct (forallb valid_weights hs).
Qed.

Lemma process_spec (hs : list Holding) :
  process hs
  = if weights_valid hs && forallb valid_weights hs
    then Ret (concat (map tickers_of hs)) else Raise InvalidWeights.
Proof.
  unfold process. destruct (weights_valid hs); simpl; [|done].
  rewrite mapM_process_holding
    by (apply Forall_forall; intros h _; apply process_holding_spec).
  by destruct (forallb valid_weights hs).
Qed.

(** [process] accepts a portfolio exactly when every non-empty list of
    siblings, at every depth, has expected weights that sum to one, and
    then returns the tickers of the leaves from left to right; otherwise
    the run fails on the weights, whatever the quotes, the mode and the
    rest of the portfolio. *)
Theorem weights_are_checked_first (hs : list Holding) :
  process hs
  = (if weights_valid hs && forallb valid_weights hs
     then Ret (concat (map tickers_of hs)) else Raise InvalidWeights)
  /\ (weights_valid hs && forallb valid_weights hs = false ->
      forall fuel quotes p fake,
        portfolio_holdings p = hs ->
        calculate fuel quotes p fake = Raise InvalidWeights).
Proof.
  split; [apply process_spec|]. intros Hbad fuel quotes p fake <-.
  unfold calculate. rewrite process_spec, Hbad. done.
Qed.

Lemma weights_are_checked_first_witness :
  calculate 5 unit_quotes lopsided false = Raise InvalidWeights.
Proof.
  apply (proj2 (weights_are_checked_first (portfolio_holdings lopsided)));
    [vm_compute; reflexivity|reflexivity].
Defined.

(** ** Prices *)

Lemma fake_prices_lookup (tickers : list string) (t : string) :
  t ∈ tickers ->
  (list_to_map (map (fun t => (t, 1)) tickers) : gmap string Qc) !! t = Some 1.
Proof.
  induction tickers as [|x l IH]; [by intros ?%elem_of_nil|].
  intros Ht. simpl. destruct (decide (x = t)) as [->|Hne].
  - by rewrite lookup_insert_eq.
  - rewrite lookup_insert_ne by done. apply IH.
    apply elem_of_cons in Ht as [->|Ht]; done.
Qed.

Lemma mapM_current_value_of prices (hs : list Holding) :
  Forall (fun h => Forall (fun t => is_Some (prices !! t)) (tickers_of h) ->
                   exists h', current_value_of prices h = Ret h') hs ->
  Forall (fun t => is_Some (prices !! t)) (concat (map tickers_of hs)) ->
  exists hs', mapM (current_value_of prices) hs = Ret hs'.
Proof.
  induction 1 as [|h hs Hh _ IH]; simpl; [by eauto|].
  intros [Ht1 Ht2]%Forall_app.
  destruct (Hh Ht1) as [h' ->]. destruct (IH Ht2) as [hs' ->]. simpl. eauto.
Qed.

Lemma current_value_of_priced prices (h : Holding) :
  Forall (fun t => is_Some (prices !! t)) (tickers_of h) ->
  exists h', current_value_of prices h = Ret h'.
Proof.
  induction h as [a s|a hs IH] using Holding_ind'; simpl; intros Ht.
  - apply Forall_cons in Ht as [[p ->] _]. eauto.
  - destruct (mapM_current_value_of prices hs IH Ht) as [hs' ->]. simpl. eauto.
Qed.

Lemma mapM_current_value_of_missing prices (hs : list Holding) :
  Forall (fun h => ~ Forall (fun t => is_Some (prices !! t)) (tickers_of h) ->
                   current_value_of prices h = Raise KeyError) hs ->
  ~ Forall (fun t => is_Some (prices !! t)) (concat (map tickers_of hs)) ->
  mapM (current_value_of prices) hs = Raise KeyError.
Proof.
  induction 1 as [|h hs Hh _ IH]; simpl; intros Hmiss.
  - exfalso. apply Hmiss. constructor.
  - destruct (decide (Forall (fun t => is_Some (prices !! t)) (tickers_of h))) as [Hall|Hn].
    + destruct (current_value_of_priced prices h Hall) as [h' ->]. simpl.
      rewrite IH; [done|]. intros Hrest. apply Hmiss. by apply Forall_app.
    + by rewrite Hh.
Qed.

Lemma current_value_of_missing prices (h : Holding) :
  ~ Forall (fun t => is_Some (prices !! t)) (tickers_of h) ->
  current_value_of prices h = Raise KeyError.
Proof.
  induction h as [a s|a hs IH] using Holding_ind'; simpl; intros Hmiss.
  - destruct (prices !! ticker s) as [p|] eqn:E; [|done].
    exfalso. apply Hmiss. repeat constructor. by rewrite E.
  - by rewrite (mapM_current_value_of_missing prices hs IH Hmiss).
Qed.

(** The valuation pass returns exactly when the price table has every
    ticker of the tree, and raises [KeyError] otherwise.  A run with real
    prices whose weights are valid fails with the tickers error, before
    anything is valued, when a ticker has no quote; a run with fake prices
    prices every ticker at 1 and its valuation never fails. *)
Theorem every_ticker_must_be_priced (hs : list Holding) :
  (forall prices,
     (Forall (fun t => is_Some (prices !! t)) (concat (map tickers_of hs)) ->
      exists hs' total, calculate_current_value hs prices = Ret (hs', total))
     /\ (~ Forall (fun t => is_Some (prices !! t)) (concat (map tickers_of hs)) ->
         calculate_current_value hs prices = Raise KeyError))
  /\ (forall fuel quotes p,
        portfolio_holdings p = hs ->
        weights_valid hs && forallb valid_weights hs = true ->
        ~ Forall (fun t => is_Some (quotes !! t)) (concat (map tickers_of hs)) ->
        calculate fuel quotes p false = Raise UnknownTickers)
  /\ (forall tickers,
        process hs = Ret tickers ->
        exists hs' total,
          calculate_current_value hs (list_to_map (map (fun t => (t, 1)) tickers))
          = Ret (hs', total)).
Proof.
  assert (Hok : forall prices,
            Forall (fun t => is_Some (prices !! t)) (concat (map tickers_of hs)) ->
            exists hs' total, calculate_current_value hs prices = Ret (hs', total)).
  { intros prices Hall. unfold calculate_current_value.
    destruct (mapM_current_value_of prices hs) as [hs' ->]; [|done|simpl; eauto].
    apply Forall_forall. intros h _. apply current_value_of_priced. }
  split; [|split].
  - intros prices. split; [apply Hok|]. intros Hmiss. unfold calculate_current_value.
    rewrite mapM_current_value_of_missing; [done| |done].
    apply Forall_forall. intros h _. apply current_value_of_missing.
  - intros fuel quotes p <- Hvalid Hmiss. unfold calculate.
    rewrite process_spec, Hvalid. simpl.
    unfold get_prices.
    destruct (forallb _ (concat (map tickers_of (portfolio_holdings p)))) eqn:E; [|done].
    exfalso. apply Hmiss. apply Forall_forall. intros t Ht.
    rewrite forallb_forall in E. apply list_elem_of_In, E in Ht.
    by apply bool_decide_eq_true in Ht.
  - intros tickers Hp. apply Hok.
    rewrite process_spec in Hp.
    destruct (weights_valid hs && forallb valid_weights hs); [|done].
    injection Hp as <-. apply Forall_forall. intros t Ht.
    rewrite fake_prices_lookup by done. eauto.
Qed.

Lemma every_ticker_must_be_priced_witness :
  calculate 5 two_quotes three_way false = Raise UnknownTickers.
Proof.
  apply (proj1 (proj2 (every_ticker_must_be_priced (portfolio_holdings three_way))));
    [reflexivity|vm_compute; reflexivity|].
  intros H. vm_compute in H.
  apply Forall_cons in H as [_ H]. apply Forall_cons in H as [_ H].
  apply Forall_cons in H as [[p Hp] _]. discriminate Hp.
Defined.

(** ** Valuation *)

Lemma current_value_of_valued prices (h h' : Holding) :
  current_value_of prices h = Ret h' ->
  Forall (valued_at prices) (subholdings h')
  /\ current_value (attrs h') = position_of prices h.
Proof.
  revert h'. induction h as [a s|a hs IH] using Holding_ind'; intros h' H; simpl in H.
  - destruct (prices !! ticker s) as [p|] eqn:E; [|done]. injection H as <-.
    simpl. rewrite E. split; [|done]. by repeat constructor.
  - apply bind_Ret in H as (hs' & Hmap & H). injection H as <-.
    apply mapM_Forall2 in Hmap. simpl.
    assert (Hall : Forall (fun c' => Forall (valued_at prices) (subholdings c')) hs'
                   /\ map (fun c => current_value (attrs c)) hs'
                      = map (position_of prices) hs).
    { clear -IH Hmap. induction Hmap as [|c c' cs cs' Hc _ IHcs]; [done|].
      apply Forall_cons in IH as [IHc IH].
      destruct (IHc _ Hc) as [Hv Hp]. destruct (IHcs IH) as [Hvs Hps].
      split; [by constructor|]. simpl. by rewrite Hp, Hps. }
    destruct Hall as [Hv Hp]. split; [|by rewrite Hp].
    constructor; [done|]. by apply Forall_concat_map.
Qed.

(** The valuation pass prices every leaf from the table, values it at
    [current_shares] times that price, values every group at the sum of
    its members, copies each current value into the working value, and
    returns the sum of all leaves' [current_shares] times price. *)
Theorem valuation_totals prices (hs hs' : list Holding) (total : Qc) :
  calculate_current_value hs prices = Ret (hs', total) ->
  Forall (valued_at prices) (all_holdings hs')
  /\ total = sum (map (fun h => current_value (attrs h)) hs')
  /\ total = sum (map (position_of prices) hs).
Proof.
  unfold calculate_current_value. intros H.
  apply bind_Ret in H as (hs1 & Hmap & H). injection H as <- <-.
  apply mapM_Forall2 in Hmap.
  assert (Hall : Forall (fun c' => Forall (valued_at prices) (subholdings c')) hs1
                 /\ map (fun c => current_value (attrs c)) hs1
                    = map (position_of prices) hs).
  { induction Hmap as [|c c' cs cs' Hc _ IHcs]; [done|].
    destruct (current_value_of_valued _ _ _ Hc) as [Hv Hp].
    destruct IHcs as [Hvs Hps]. split; [by constructor|]. simpl. by rewrite Hp, Hps. }
  destruct Hall as [Hv Hp]. split; [by apply Forall_concat_map|].
  split; [done|by rewrite Hp].
Qed.

Lemma valuation_totals_witness :
  exists hs' total,
    calculate_current_value small_tree small_tree_quotes = Ret (hs', total)
    /\ total = sum (map (position_of small_tree_quotes) small_tree)
    /\ total = dec 97 1.
Proof.
  eexists _, _. split; [vm_compute; reflexivity|].
  edestruct (valuation_totals small_tree_quotes small_tree) as (_ & _ & Ht);
    [vm_compute; reflexivity|].
  split; [exact Ht|]. qc_eq.
Defined.

(** ** Weight corrector: only weights are written *)

Lemma set_weight_same (h : Holding) : set_weight (weight (attrs h)) h = h.
Proof. by destruct h as [[] ?|[] ?]. Qed.

Lemma set_weight_twice (w w' : Qc) (h : Holding) :
  set_weight w' (set_weight w h) = set_weight w' h.
Proof. by destruct h. Qed.

Lemma unweighted_set_weight (w : Qc) (h : Holding) :
  unweighted (set_weight w h) = unweighted h.
Proof. by destruct h. Qed.

Lemma reweighted_refl (h : Holding) : reweighted h h.
Proof. unfold reweighted. by rewrite set_weight_same. Qed.

Lemma reweighted_set_weight (w : Qc) (h : Holding) : reweighted h (set_weight w h).
Proof. unfold reweighted. by rewrite weight_set_weight. Qed.

Lemma reweighted_trans (h1 h2 h3 : Holding) :
  reweighted h1 h2 -> reweighted h2 h3 -> reweighted h1 h3.
Proof.
  unfold reweighted. intros H12 H23. rewrite H23 at 1. rewrite H12.
  by rewrite set_weight_twice.
Qed.

Lemma Forall2_reweighted_refl (hs : list Holding) : Forall2 reweighted hs hs.
Proof. apply Forall_Forall2_diag, Forall_forall. intros h _. apply reweighted_refl. Qed.

Lemma Forall2_reweighted_trans (l1 l2 l3 : list Holding) :
  Forall2 reweighted l1 l2 -> Forall2 reweighted l2 l3 -> Forall2 reweighted l1 l3.
Proof.
  intros H12. revert l3. induction H12 as [|x y l1 l2 Hxy _ IH]; intros l3 H23.
  - by inversion H23.
  - inversion H23; subst. constructor; [by eapply reweighted_trans|by apply IH].
Qed.

Lemma selling_iteration_reweights etv hs hs' ok again :
  selling_iteration etv hs = Ret (hs', ok, again) -> Forall2 reweighted hs hs'.
Proof.
  unfold selling_iteration.
  destruct (decide (0 < total_assets_overuse etv hs));
    [|intros [= <- _ _]; apply Forall2_reweighted_refl].
  destruct (selling_correctable etv hs);
    [intros [= <- _ _]; apply Forall2_reweighted_refl|].
  intros H. apply bind_Ret in H as (mult & _ & H).
  apply bind_Ret in H as (hs1 & Hmap & H). injection H as <- _ _.
  apply mapM_Forall2 in Hmap. eapply Forall2_impl; [exact Hmap|].
  simpl. intros x y Hxy.
  destruct (selling_pinned etv x); [injection Hxy as <-; apply reweighted_refl|].
  unfold selling_corrected in Hxy.
  destruct (minimum_value (attrs x));
    [|injection Hxy as <-; apply reweighted_set_weight].
  destruct (bool_decide _); [|injection Hxy as <-; apply reweighted_set_weight].
  apply bind_Ret in Hxy as (w & _ & Hxy). injection Hxy as <-.
  apply reweighted_set_weight.
Qed.

Lemma buying_iteration_reweights etv hs hs' ok again :
  buying_iteration etv hs = Ret (hs', ok, again) -> Forall2 reweighted hs hs'.
Proof.
  unfold buying_iteration.
  destruct (decide (extra_assets etv hs = 0));
    [intros [= <- _ _]; apply Forall2_reweighted_refl|].
  destruct (buying_correctable etv hs);
    [intros [= <- _ _]; apply Forall2_reweighted_refl|].
  intros H. apply bind_Ret in H as (mult & _ & H).
  apply bind_Ret in H as (hs1 & Hmap & H). injection H as <- _ _.
  apply mapM_Forall2 in Hmap. eapply Forall2_impl; [exact Hmap|].
  simpl. intros x y Hxy.
  destruct (buying_pinned etv x); [injection Hxy as <-; apply reweighted_refl|].
  unfold buying_corrected in Hxy.
  destruct (maximum_value (attrs x));
    [|injection Hxy as <-; apply reweighted_set_weight].
  destruct (bool_decide _); [|injection Hxy as <-; apply reweighted_set_weight].
  apply bind_Ret in Hxy as (w & _ & Hxy). injection Hxy as <-.
  apply reweighted_set_weight.
Qed.

Section CorrectorWrites.

Variable iteration : Qc -> list Holding -> res (list Holding * bool * bool).

Hypothesis iteration_reweights : forall etv hs hs' ok again,
  iteration etv hs = Ret (hs', ok, again) -> Forall2 reweighted hs hs'.

Lemma corrector_loop_reweights n etv hs hs' ok :
  corrector_loop iteration n etv hs = Ret (hs', ok) -> Forall2 reweighted hs hs'.
Proof.
  revert hs. induction n as [|n IH]; intros hs H; simpl in H;
    apply bind_Ret in H as ([[hs1 ok1] again] & Hit & H);
    apply iteration_reweights in Hit; destruct again; try done;
    try (by injection H as <- _).
  eapply Forall2_reweighted_trans; [exact Hit|by apply IH].
Qed.

Lemma into_groups_unweighted etv hs hs1 hs2 ok :
  Forall2 reweighted hs hs1 ->
  Forall (fun c => forall e cs okc,
            corrector_below iteration c e = Ret (cs, okc) ->
            map unweighted cs = map unweighted (children c)) hs ->
  into_groups etv hs1 (map (corrector_below iteration) hs) = Ret (hs2, ok) ->
  map unweighted hs2 = map unweighted hs.
Proof.
  intros HR IH H. unfold into_groups in H.
  apply bind_Ret in H as (rs & Hmap & H). injection H as <- _.
  revert rs Hmap. induction HR as [|h h1 hs hs1 Hh _ IHhs]; intros rs Hmap; simpl in Hmap.
  - by injection Hmap as <-.
  - apply Forall_cons in IH as [IHh IH].
    apply bind_Ret in Hmap as ([h2 ok2] & Hstep & Hmap).
    apply bind_Ret in Hmap as (rs' & Hrest & Hmap). injection Hmap as <-.
    simpl. f_equal; [|by apply IHhs].
    unfold reweighted in Hh. rewrite Hh in Hstep. simpl in Hstep.
    destruct h as [a s|a cs]; simpl in Hstep.
    + injection Hstep as <- _. rewrite Hh. done.
    + apply bind_Ret in Hstep as ([cs' okc] & Hbelow & Hstep). injection Hstep as <- _.
      simpl. f_equal. by apply (IHh _ _ _ Hbelow).
Qed.

Lemma corrector_below_unweighted h etv cs ok :
  corrector_below iteration h etv = Ret (cs, ok) ->
  map unweighted cs = map unweighted (children h).
Proof.
  revert etv cs ok. induction h as [a s|a hs IH] using Holding_ind'; intros etv cs ok H.
  - simpl in H. by injection H as <- _.
  - simpl in H. apply bind_Ret in H as ([hs1 ok1] & Hloop & H).
    apply bind_Ret in H as ([hs2 ok2] & Hinto & H). injection H as <- _.
    apply corrector_loop_reweights in Hloop.
    by eapply into_groups_unweighted.
Qed.

Lemma corrector_unweighted hs etv hs' ok :
  corrector iteration hs etv = Ret (hs', ok) ->
  map unweighted hs' = map unweighted hs.
Proof.
  unfold corrector. intros H.
  apply bind_Ret in H as ([hs1 ok1] & Hloop & H).
  apply bind_Ret in H as ([hs2 ok2] & Hinto & H). injection H as <- _.
  apply corrector_loop_reweights in Hloop.
  eapply into_groups_unweighted; [exact Hloop| |exact Hinto].
  apply Forall_forall. intros c _ e cs okc. apply corrector_below_unweighted.
Qed.

End CorrectorWrites.

Lemma correct_weights_unweighted hs etv hs' :
  correct_weights hs etv = Ret hs' -> map unweighted hs' = map unweighted hs.
Proof.
  unfold correct_weights. intros H.
  apply bind_Ret in H as ([hs1 ok1] & Hb & H).
  apply bind_Ret in H as ([hs2 ok2] & Hs & H). injection H as <-.
  apply (corrector_unweighted _ buying_iteration_reweights) in Hb.
  apply (corrector_unweighted _ selling_iteration_reweights) in Hs.
  congruence.
Qed.

(** The two correction passes write weights and nothing else: apart from
    the weights, the tree they return is the tree they were given, with
    the same shape, shares, prices, values, flags, floors and ceilings. *)
Theorem corrections_only_write_weights (hs : list Holding) (etv : Qc) :
  (forall hs' ok, correct_weights_for_selling_restriction hs etv = Ret (hs', ok) ->
                  map unweighted hs' = map unweighted hs)
  /\ (forall hs' ok, correct_weights_for_buying_restriction hs etv = Ret (hs', ok) ->
                     map unweighted hs' = map unweighted hs).
Proof.
  split; intros hs' ok H.
  - by apply (corrector_unweighted _ selling_iteration_reweights) in H.
  - by apply (corrector_unweighted _ buying_iteration_reweights) in H.
Qed.

Lemma corrections_only_write_weights_witness :
  exists hs' ok,
    correct_weights_for_selling_restriction floors_level (dec 105 1) = Ret (hs', ok)
    /\ map unweighted hs' = map unweighted floors_level.
Proof.
  pose proof (proj1 (corrections_only_write_weights floors_level (dec 105 1))) as H.
  eexists _, _. split; [vm_compute; reflexivity|].
  eapply H. vm_compute. reflexivity.
Defined.
